(** * A fixed-capacity open-addressing hash map (hashmap.c)

    Shallow embedding of [src/hashmap.c]: a table of [capacity] slots,
    integer keys, text values, linear probing, and "the value is empty" as
    the only occupancy marker.

    Conventions of the embedding.
    - [size_t] values are [Z] in [0, 2^64); increments and decrements wrap.
    - A [HashMapPair*] (or the [HashMapValue*] that [hash_map_find] returns,
      which points into a slot) is the offset of the slot in [pairs];
      [NULL] is [None].
    - Every operation that dereferences a slot pointer returns an [option]
      whose [None] stands for undefined behaviour (a read or write outside
      the slot array, a remainder by zero).  On well-formed maps no
      operation is undefined (see [wf], [find_cases] and [run_effect]).
    - [hash_map_create_with] takes the outcome of its two allocations as
      arguments; its [None] is the [NULL] it returns.
    [hash_map_destroy] only releases memory and is left out. *)

From Stdlib Require Import ZArith QArith String Lia.
From stdpp Require Import base option list.

Close Scope Q_scope.
Open Scope Z_scope.

(** ** The text capability *)

(** Modelled from the spec: the [String] type and its three operations are
    declared in a string utility that is not part of [src/].  The spec gives
    the contract: construction copies its source, and the emptiness test is
    true iff the text holds no characters or is the zero-initialised
    "unset" value [(String){0}].  A text is modelled by its characters, so
    the unset value and a text without characters coincide, which is what
    the emptiness test observes.  Release ([string_deinit]) frees the buffer;
    at each call site modelled here the released value is overwritten by the
    next statement, so it has no counterpart in the model. *)
Definition String : Type := string.

(** Modelled from the spec: [(String){0}], the unset text. *)
Definition string_zero : String := EmptyString.

(** Modelled from the spec: emptiness test of the text capability. *)
Definition string_empty (s : String) : bool :=
  match s with
  | EmptyString => true
  | _ => false
  end.

(** Modelled from the spec: copy construction of the text capability. *)
Definition string_create_from (s : String) : String := s.

(** ** Data model *)

(** Modelled from the spec: [HashMapKey] is declared in [hashmap.h], which is
    not part of [src/]; the spec fixes it as a fixed-width integer.  A key is
    its mathematical value; an integer of at most 64 bits is converted to
    [size_t] by wrapping modulo [2^64] when it meets [hm->capacity] in the
    remainder of [hash_map_hash]. *)
Definition HashMapKey : Type := Z.

Definition HashMapValue : Type := String.

Record HashMapPair : Type := mkPair {
  key : HashMapKey;
  value : HashMapValue
}.

Record HashMap : Type := mkMap {
  capacity : Z;
  size : Z;
  pairs : list HashMapPair
}.

Definition size_t_modulus : Z := 2 ^ 64.

Definition to_size_t (z : Z) : Z := z mod size_t_modulus.

(** The zero-filled slot that [calloc] and [hash_map_clear] produce. *)
Definition zero_pair : HashMapPair := mkPair 0 string_zero.

(** [pair->value = v] at slot [pair]. *)
Definition store_value (map : HashMap) (pair : nat) (v : HashMapValue)
  : option (list HashMapPair) :=
  p ← pairs map !! pair;
  Some (<[pair := mkPair (key p) v]> (pairs map)).

(** ** Operations *)

(** [(size_t)(key % hm->capacity)], the remainder taken in [size_t]. *)
Definition hash_map_hash (hm : HashMap) (k : HashMapKey) : option Z :=
  if capacity hm =? 0 then None
  else Some (to_size_t k mod capacity hm).

(** [calloc] fills the slots with zero bytes: key 0 and the unset text. *)
Definition hash_map_create_with (malloc_ok calloc_ok : bool) (cap : Z)
  : option HashMap :=
  if cap <=? 0 then None
  else if negb malloc_ok then None
  else if negb calloc_ok then None
  else Some (mkMap cap 0 (replicate (Z.to_nat cap) zero_pair)).

Definition hash_map_create (malloc_ok calloc_ok : bool) : option HashMap :=
  hash_map_create_with malloc_ok calloc_ok 16.

(** [pair++; if (pair == map->pairs + map->capacity) pair = map->pairs;] *)
Definition pair_step (map : HashMap) (pair : nat) : nat :=
  if Z.of_nat (S pair) =? capacity map then 0%nat else S pair.

(** The body of the [for] loop of [hash_map_find], with [n] iterations
    left and [pair] the slot examined next. *)
Fixpoint find_loop (map : HashMap) (k : HashMapKey) (pair n : nat)
  : option (option nat) :=
  match n with
  | O => Some None
  | S n' =>
      match pairs map !! pair with
      | None => None
      | Some p =>
          if (key p =? k) && negb (string_empty (value p))
          then Some (Some pair)
          else find_loop map k (pair_step map pair) n'
      end
  end.

Definition hash_map_find (map : HashMap) (k : HashMapKey)
  : option (option nat) :=
  h ← hash_map_hash map k;
  find_loop map k (Z.to_nat h) (Z.to_nat (capacity map)).

(** [(double)map->size / map->capacity].  The quotient of the two doubles is
    modelled by the exact rational: for a capacity of at most [2^53] slots
    both conversions are exact and the rounded quotient is at least 1 exactly
    when the rational one is. *)
Definition hash_map_load_factor (map : HashMap) : Q :=
  (inject_Z (size map) / inject_Z (capacity map))%Q.

Fixpoint insert_loop (map : HashMap) (k : HashMapKey) (v : HashMapValue)
    (pair n : nat) : option (bool * HashMap) :=
  match n with
  | O => Some (false, map)
  | S n' =>
      match pairs map !! pair with
      | None => None
      | Some p =>
          if string_empty (value p) then
            Some (true,
                  mkMap (capacity map) (to_size_t (size map + 1))
                        (<[pair := mkPair k (string_create_from v)]> (pairs map)))
          else if key p =? k then Some (false, map)
          else insert_loop map k v (pair_step map pair) n'
      end
  end.

Definition hash_map_insert (map : HashMap) (k : HashMapKey) (v : HashMapValue)
  : option (bool * HashMap) :=
  if Qle_bool 1 (hash_map_load_factor map) then Some (false, map)
  else
    h ← hash_map_hash map k;
    insert_loop map k v (Z.to_nat h) (Z.to_nat (capacity map)).

Definition hash_map_insert_or_assign (map : HashMap) (k : HashMapKey)
    (v : HashMapValue) : option (bool * HashMap) :=
  existing_value ← hash_map_find map k;
  match existing_value with
  | None => hash_map_insert map k v
  | Some j =>
      ps ← store_value map j (string_create_from v);
      Some (true, mkMap (capacity map) (size map) ps)
  end.

(** On a match only [pair->value] and [map->size] are written. *)
Fixpoint remove_loop (map : HashMap) (k : HashMapKey) (pair n : nat)
  : option (bool * HashMap) :=
  match n with
  | O => Some (false, map)
  | S n' =>
      match pairs map !! pair with
      | None => None
      | Some p =>
          if (key p =? k) && negb (string_empty (value p)) then
            ps ← store_value map pair string_zero;
            Some (true, mkMap (capacity map) (to_size_t (size map - 1)) ps)
          else remove_loop map k (pair_step map pair) n'
      end
  end.

Definition hash_map_remove (map : HashMap) (k : HashMapKey)
  : option (bool * HashMap) :=
  h ← hash_map_hash map k;
  remove_loop map k (Z.to_nat h) (Z.to_nat (capacity map)).

Definition hash_map_contains (map : HashMap) (k : HashMapKey) : option bool :=
  r ← hash_map_find map k;
  Some (match r with Some _ => true | None => false end).

(** [pairs[i].key = 0; pairs[i].value = (String){0};] for each slot. *)
Fixpoint clear_loop (ps : list HashMapPair) (i n : nat)
  : option (list HashMapPair) :=
  match n with
  | O => Some ps
  | S n' =>
      match ps !! i with
      | None => None
      | Some _ => clear_loop (<[i := zero_pair]> ps) (S i) n'
      end
  end.

Definition hash_map_clear (map : HashMap) : option HashMap :=
  ps ← clear_loop (pairs map) 0 (Z.to_nat (capacity map));
  Some (mkMap (capacity map) 0 ps).

Definition hash_map_size (map : HashMap) : Z := size map.

Definition hash_map_capacity (map : HashMap) : Z := capacity map.

Definition hash_map_empty (map : HashMap) : bool := size map =? 0.

(** [hash_map_first] walks upwards from slot 0 and does not wrap. *)
Fixpoint first_loop (map : HashMap) (pair n : nat) : option (option nat) :=
  match n with
  | O => Some None
  | S n' =>
      match pairs map !! pair with
      | None => None
      | Some p =>
          if negb (string_empty (value p)) then Some (Some pair)
          else first_loop map (S pair) n'
      end
  end.

Definition hash_map_first (map : HashMap) : option (option nat) :=
  first_loop map 0 (Z.to_nat (capacity map)).

(** [hash_map_next_pair] starts one past [pair], wraps at the end of the
    array before it reads a slot, and makes [capacity - 1] iterations. *)
Fixpoint next_loop (map : HashMap) (next_pair n : nat)
  : option (option nat) :=
  match n with
  | O => Some None
  | S n' =>
      let next_pair :=
        if Z.of_nat next_pair =? capacity map then 0%nat else next_pair in
      match pairs map !! next_pair with
      | None => None
      | Some p =>
          if negb (string_empty (value p)) then Some (Some next_pair)
          else next_loop map (S next_pair) n'
      end
  end.

Definition hash_map_next_pair (map : HashMap) (pair : option nat)
  : option (option nat) :=
  match pair with
  | None => Some None
  | Some i => next_loop map (S i) (Z.to_nat (capacity map) - 1)
  end.

(** [hash_map_last] walks downwards from the last slot.  The slot pointer
    is an integer offset here: after the slot at offset 0 the decrement
    leaves the array, and a read there is undefined; on a table of
    [capacity] slots the loop ends before it reads that pointer. *)
Fixpoint last_loop (map : HashMap) (pair : Z) (n : nat)
  : option (option nat) :=
  match n with
  | O => Some None
  | S n' =>
      if pair <? 0 then None
      else
        match pairs map !! Z.to_nat pair with
        | None => None
        | Some p =>
            if negb (string_empty (value p)) then Some (Some (Z.to_nat pair))
            else last_loop map (pair - 1) n'
        end
  end.

Definition hash_map_last (map : HashMap) : option (option nat) :=
  last_loop map (to_size_t (capacity map - 1)) (Z.to_nat (capacity map)).

(** ** Well-formed maps *)

(** The largest table for which [hash_map_load_factor] is exact. *)
Definition max_slots : Z := 2 ^ 53.

(** What [hash_map_create_with] establishes and every operation keeps:
    [pairs] is an array of [capacity] slots, and the two counters are
    [size_t] values. *)
Record wf (map : HashMap) : Prop := {
  wf_capacity_pos : 0 < capacity map;
  wf_capacity_max : capacity map <= max_slots;
  wf_pairs : Z.of_nat (length (pairs map)) = capacity map;
  wf_size : 0 <= size map < size_t_modulus
}.

(** ** The probe shared by the scanning loops *)

(** The three tests the loops apply to a slot. *)
Definition matches (k : HashMapKey) (p : HashMapPair) : bool :=
  (key p =? k) && negb (string_empty (value p)).

Definition free_or_same (k : HashMapKey) (p : HashMapPair) : bool :=
  string_empty (value p) || (key p =? k).

Definition occupied (p : HashMapPair) : bool :=
  negb (string_empty (value p)).

Definition slot_test (stop : HashMapPair -> bool) (map : HashMap) (i : nat)
  : bool :=
  match pairs map !! i with
  | Some p => stop p
  | None => false
  end.

(** Walk at most [n] slots from [pair], wrapping at the end of the array,
    and return the first one that passes [stop]. *)
Fixpoint probe (stop : HashMapPair -> bool) (map : HashMap) (pair n : nat)
  : option (option nat) :=
  match n with
  | O => Some None
  | S n' =>
      match pairs map !! pair with
      | None => None
      | Some p =>
          if stop p then Some (Some pair)
          else probe stop map (pair_step map pair) n'
      end
  end.

(** The states the mutating loops produce. *)
Definition placed (map : HashMap) (j : nat) (k : HashMapKey) (v : HashMapValue)
  : HashMap :=
  mkMap (capacity map) (to_size_t (size map + 1))
        (<[j := mkPair k (string_create_from v)]> (pairs map)).

Definition vacated (map : HashMap) (j : nat) (p : HashMapPair) : HashMap :=
  mkMap (capacity map) (to_size_t (size map - 1))
        (<[j := mkPair (key p) string_zero]> (pairs map)).

Definition assigned (map : HashMap) (j : nat) (p : HashMapPair)
    (v : HashMapValue) : HashMap :=
  mkMap (capacity map) (size map)
        (<[j := mkPair (key p) (string_create_from v)]> (pairs map)).

(** The slot reached from [pair] after [t] steps of [pair_step] in a table
    of [c] slots (for [pair < c] and [t <= c]). *)
Definition slot_after (c pair t : nat) : nat :=
  if decide (pair + t < c)%nat then (pair + t)%nat else (pair + t - c)%nat.

(** ** Traversal *)

(** The first [n] slots of the chain [first(), next(first()), ...], which
    stops early at [NULL]. *)
Fixpoint traverse_from (map : HashMap) (pair : option nat) (n : nat)
  : option (list nat) :=
  match n, pair with
  | S n', Some i =>
      nxt ← hash_map_next_pair map (Some i);
      rest ← traverse_from map nxt n';
      Some (i :: rest)
  | _, _ => Some []
  end.

Definition traverse (map : HashMap) (n : nat) : option (list nat) :=
  start ← hash_map_first map;
  traverse_from map start n.

(** The slots whose value is not empty, in ascending order. *)
Definition occupied_slots (map : HashMap) : list nat :=
  filter (fun i => slot_test occupied map i = true)
         (seq 0 (length (pairs map))).

(** The number of slots whose value is not empty. *)
Definition count_occupied (map : HashMap) : Z :=
  Z.of_nat (length (filter (fun p => occupied p = true) (pairs map))).

(** ** Reachable states *)

Inductive operation : Type :=
  | Insert (k : HashMapKey) (v : HashMapValue)
  | InsertOrAssign (k : HashMapKey) (v : HashMapValue)
  | Remove (k : HashMapKey)
  | Clear.

Definition run (map : HashMap) (o : operation) : option HashMap :=
  match o with
  | Insert k v => snd <$> hash_map_insert map k v
  | InsertOrAssign k v => snd <$> hash_map_insert_or_assign map k v
  | Remove k => snd <$> hash_map_remove map k
  | Clear => hash_map_clear map
  end.

(** The values an operation hands to the map satisfy [P]. *)
Definition stores (P : HashMapValue -> Prop) (o : operation) : Prop :=
  match o with
  | Insert _ v | InsertOrAssign _ v => P v
  | Remove _ | Clear => True
  end.

(** States reached from a freshly created map by operations whose values
    satisfy [P].  The table has at most [max_slots] slots: no allocator
    provides more, and in this range the load factor is computed exactly. *)
Inductive reachable_storing (P : HashMapValue -> Prop) : HashMap -> Prop :=
  | reach_create malloc_ok calloc_ok cap map :
      cap <= max_slots ->
      hash_map_create_with malloc_ok calloc_ok cap = Some map ->
      reachable_storing P map
  | reach_run map o map' :
      reachable_storing P map ->
      stores P o ->
      run map o = Some map' ->
      reachable_storing P map'.

Definition reachable : HashMap -> Prop := reachable_storing (fun _ => True).

Definition nonempty_text (v : HashMapValue) : Prop := string_empty v = false.

(** ** Effects of the operations *)

(** The table [hash_map_clear] leaves behind. *)
Definition cleared (map : HashMap) : HashMap :=
  mkMap (capacity map) 0 (replicate (length (pairs map)) zero_pair).

(** What an operation can do to a well-formed map: nothing, fill an empty
    slot while the map is not full, empty an occupied slot, overwrite the
    value of an occupied slot, or empty every slot. *)
Inductive effect (map : HashMap) : operation -> HashMap -> Prop :=
  | effect_none o : effect map o map
  | effect_placed o j p k v :
      (forall P, stores P o -> P v) ->
      size map < capacity map ->
      pairs map !! j = Some p -> string_empty (value p) = true ->
      effect map o (placed map j k v)
  | effect_assigned o j p v :
      (forall P, stores P o -> P v) ->
      pairs map !! j = Some p -> occupied p = true ->
      effect map o (assigned map j p v)
  | effect_vacated k j p :
      pairs map !! j = Some p -> occupied p = true ->
      effect map (Remove k) (vacated map j p)
  | effect_cleared : effect map Clear (cleared map).

(** [size] is at least the number of occupied slots and at most
    [capacity]. *)
Definition counters_ok (map : HashMap) : Prop :=
  count_occupied map <= size map <= capacity map.

(** No two occupied slots hold the same key. *)
Definition unique_keys (map : HashMap) : Prop :=
  forall i j p q,
    pairs map !! i = Some p -> pairs map !! j = Some q ->
    occupied p = true -> occupied q = true ->
    key p = key q -> i = j.

(** The operations that may come between two inserts of key [k] without
    taking the entry of [k] away or changing its value: any insert, and an
    insert_or_assign of another key with a non-empty value.  (Assigning
    the empty text empties a slot, as a removal does.) *)
Definition keeps_entry (k : HashMapKey) (o : operation) : Prop :=
  match o with
  | Insert _ _ => True
  | InsertOrAssign k' v => k' <> k /\ nonempty_text v
  | Remove _ | Clear => False
  end.

(** Every occupied slot of [map] is still occupied in [m] and holds the
    same key; a slot that held key [k] holds the same value as well. *)
Definition entries_held (k : HashMapKey) (map m : HashMap) : Prop :=
  capacity m = capacity map /\
  length (pairs m) = length (pairs map) /\
  forall i p, pairs map !! i = Some p -> occupied p = true ->
    exists p', pairs m !! i = Some p' /\ key p' = key p /\
               occupied p' = true /\ (key p = k -> p' = p).

(** ** Scenarios *)

Definition run_all (map : HashMap) (os : list operation) : option HashMap :=
  foldl (fun m o => m ≫= fun map => run map o) (Some map) os.

(** Insert the pairs of [l] one after the other; the result says whether
    every insert returned true. *)
Fixpoint insert_all (map : HashMap) (l : list (HashMapKey * HashMapValue))
  : option (bool * HashMap) :=
  match l with
  | [] => Some (true, map)
  | (k, v) :: l' =>
      match hash_map_insert map k v with
      | None => None
      | Some (b, m) =>
          match insert_all m l' with
          | None => None
          | Some (b', m') => Some (b && b', m')
          end
      end
  end.

(** A freshly created table of four slots. *)
Definition table4 : HashMap := mkMap 4 0 (replicate 4 zero_pair).

(** Keys 0 and 4 share home slot 0 of [table4]; key 4 is placed in slot 1. *)
Definition collided4 : HashMap :=
  mkMap 4 2 [mkPair 0 "a"%string; mkPair 4 "b"%string; zero_pair; zero_pair].

(** [collided4] after key 0 was removed: slot 0 is a hole in front of key 4. *)
Definition holed4 : HashMap :=
  mkMap 4 1 [mkPair 0 string_zero; mkPair 4 "b"%string; zero_pair; zero_pair].

(** [holed4] after key 4 was inserted again: slots 0 and 1 both hold key 4. *)
Definition doubled4 : HashMap :=
  mkMap 4 2 [mkPair 4 "c"%string; mkPair 4 "b"%string; zero_pair; zero_pair].

(** [collided4] after insert of key 1, which lands in slot 2, and
    insert_or_assign of a new value for key 0. *)
Definition crowded4 : HashMap :=
  mkMap 4 3 [mkPair 0 "y"%string; mkPair 4 "b"%string; mkPair 1 "x"%string;
             zero_pair].

(** A table of two slots: fresh, after key 0 was inserted, and after key 1
    was inserted as well. *)
Definition table2 : HashMap := mkMap 2 0 [zero_pair; zero_pair].

Definition half2 : HashMap := mkMap 2 1 [mkPair 0 "a"%string; zero_pair].

Definition full2 : HashMap :=
  mkMap 2 2 [mkPair 0 "a"%string; mkPair 1 "b"%string].

(** * Properties *)

Section Probe.
Variable map : HashMap.

Lemma find_loop_probe k pair n :
  find_loop map k pair n = probe (matches k) map pair n.
Proof.
  revert pair. induction n as [|n IH]; intros pair; simpl; [done|].
  destruct (pairs map !! pair) as [p|]; [|done].
  unfold matches. destruct (_ && _); [done|apply IH].
Qed.

Lemma insert_loop_probe k v pair n :
  insert_loop map k v pair n =
  match probe (free_or_same k) map pair n with
  | None => None
  | Some None => Some (false, map)
  | Some (Some j) =>
      match pairs map !! j with
      | None => None
      | Some p =>
          if string_empty (value p) then Some (true, placed map j k v)
          else Some (false, map)
      end
  end.
Proof.
  revert pair. induction n as [|n IH]; intros pair; simpl; [done|].
  destruct (pairs map !! pair) as [p|] eqn:Hp; [|done].
  unfold free_or_same.
  destruct (string_empty (value p)) eqn:He; simpl.
  - by rewrite Hp, He.
  - destruct (key p =? k); [|apply IH]. by rewrite Hp, He.
Qed.

Lemma remove_loop_probe k pair n :
  remove_loop map k pair n =
  match probe (matches k) map pair n with
  | None => None
  | Some None => Some (false, map)
  | Some (Some j) =>
      match pairs map !! j with
      | None => None
      | Some p => Some (true, vacated map j p)
      end
  end.
Proof.
  revert pair. induction n as [|n IH]; intros pair; simpl; [done|].
  destruct (pairs map !! pair) as [p|] eqn:Hp; [|done].
  destruct (matches k p) eqn:Hm; unfold matches in Hm; rewrite Hm.
  - unfold store_value. by rewrite Hp.
  - apply IH.
Qed.

(** A hit is a slot that passes the test. *)
Lemma probe_hit_test stop pair n j :
  probe stop map pair n = Some (Some j) -> slot_test stop map j = true.
Proof.
  revert pair. induction n as [|n IH]; intros pair; simpl; [done|].
  destruct (pairs map !! pair) as [p|] eqn:Hp; [|done].
  destruct (stop p) eqn:Hs; [|apply IH].
  intros [= <-]. unfold slot_test. by rewrite Hp.
Qed.

Lemma probe_hit_lookup stop pair n j :
  probe stop map pair n = Some (Some j) ->
  exists p, pairs map !! j = Some p /\ stop p = true.
Proof.
  intros H. apply probe_hit_test in H. unfold slot_test in H.
  destruct (pairs map !! j) as [p|]; [eauto|done].
Qed.

(** More fuel does not change a hit. *)
Lemma probe_fuel stop pair n n' j :
  probe stop map pair n = Some (Some j) -> (n <= n')%nat ->
  probe stop map pair n' = Some (Some j).
Proof.
  revert pair n'. induction n as [|n IH]; intros pair n'; simpl; [done|].
  destruct n' as [|n']; [lia|]. simpl.
  destruct (pairs map !! pair) as [p|]; [|done].
  destruct (stop p); [done|]. intros H Hn. apply IH; [done|lia].
Qed.

(** A probe over another table that agrees on the tests up to the hit
    finds the same slot. *)
Lemma probe_transfer stop stop' map' pair n j :
  capacity map' = capacity map ->
  length (pairs map') = length (pairs map) ->
  (forall i, slot_test stop map i = false -> slot_test stop' map' i = false) ->
  slot_test stop' map' j = true ->
  probe stop map pair n = Some (Some j) ->
  probe stop' map' pair n = Some (Some j).
Proof.
  intros Hc Hl Hpre Hj. revert pair.
  induction n as [|n IH]; intros pair; simpl; [done|].
  destruct (pairs map !! pair) as [p|] eqn:Hp; [|done].
  destruct (pairs map' !! pair) as [p'|] eqn:Hp'.
  2:{ apply lookup_lt_Some in Hp. apply lookup_ge_None in Hp'. lia. }
  destruct (stop p) eqn:Hs.
  - intros [= <-]. unfold slot_test in Hj. rewrite Hp' in Hj. by rewrite Hj.
  - specialize (Hpre pair). unfold slot_test in Hpre.
    rewrite Hp, Hp' in Hpre. rewrite (Hpre Hs).
    unfold pair_step. rewrite Hc. apply IH.
Qed.

(** Probes over tables that agree on the tests agree. *)
Lemma probe_ext stop stop' map' pair n :
  capacity map' = capacity map ->
  length (pairs map') = length (pairs map) ->
  (forall i, slot_test stop' map' i = slot_test stop map i) ->
  probe stop' map' pair n = probe stop map pair n.
Proof.
  intros Hc Hl Hext. revert pair.
  induction n as [|n IH]; intros pair; simpl; [done|].
  specialize (Hext pair). unfold slot_test in Hext.
  destruct (pairs map !! pair) as [p|] eqn:Hp;
    destruct (pairs map' !! pair) as [p'|] eqn:Hp'; try done.
  - rewrite Hext. destruct (stop p); [done|].
    unfold pair_step. rewrite Hc. apply IH.
  - apply lookup_lt_Some in Hp. apply lookup_ge_None in Hp'. lia.
  - apply lookup_lt_Some in Hp'. apply lookup_ge_None in Hp. lia.
Qed.
End Probe.

(** ** Probes over a well-formed table *)

Section WellFormed.
Variable map : HashMap.
Hypothesis Hwf : wf map.

Local Open Scope nat_scope.

Let c : nat := length (pairs map).

Lemma capacity_length : Z.to_nat (capacity map) = c.
Proof. destruct Hwf. subst c. lia. Qed.

Lemma length_pos : 0 < c.
Proof. destruct Hwf. subst c. lia. Qed.

Lemma pair_step_lt pair : pair < c -> pair_step map pair < c.
Proof.
  intros Hp. unfold pair_step. destruct Hwf. subst c.
  destruct (Z.eqb_spec (Z.of_nat (S pair)) (capacity map)); lia.
Qed.

Lemma slot_after_step pair t :
  pair < c -> t < c ->
  slot_after c (pair_step map pair) t = slot_after c pair (S t).
Proof.
  intros Hp Ht. unfold pair_step, slot_after. destruct Hwf. subst c.
  destruct (Z.eqb_spec (Z.of_nat (S pair)) (capacity map));
    repeat case_decide; lia.
Qed.

Lemma slot_test_lt stop i : slot_test stop map i = true -> i < c.
Proof.
  unfold slot_test. destruct (pairs map !! i) eqn:Hi; [|done].
  intros _. by apply lookup_lt_Some in Hi.
Qed.

(** What a probe of at most [c] slots returns. *)
Lemma probe_spec stop pair n :
  pair < c -> n <= c ->
  match probe stop map pair n with
  | None => False
  | Some None =>
      forall t, t < n -> slot_test stop map (slot_after c pair t) = false
  | Some (Some j) =>
      exists t, t < n /\ j = slot_after c pair t /\
        slot_test stop map j = true /\
        forall t', t' < t ->
          slot_test stop map (slot_after c pair t') = false
  end.
Proof.
  revert pair. induction n as [|n IH]; intros pair Hp Hn; simpl.
  { intros t Ht. lia. }
  assert (Hz : slot_after c pair 0 = pair).
  { unfold slot_after. case_decide; lia. }
  destruct (pairs map !! pair) as [p|] eqn:Hl.
  2:{ apply lookup_ge_None in Hl. subst c. lia. }
  assert (Hs0 : slot_test stop map pair = stop p).
  { unfold slot_test. by rewrite Hl. }
  destruct (stop p) eqn:Hs.
  - exists 0. repeat split; [lia|done|done|]. intros t' Ht'. lia.
  - specialize (IH (pair_step map pair) (pair_step_lt pair Hp)).
    destruct (probe stop map (pair_step map pair) n) as [[j|]|].
    + destruct IH as (t & Ht & -> & Hj & Hpre); [lia|].
      exists (S t). repeat split.
      * lia.
      * apply slot_after_step; [done|lia].
      * done.
      * intros [|t'] Ht'; [by rewrite Hz|].
        rewrite <- slot_after_step by lia. apply Hpre. lia.
    + intros [|t] Ht; [by rewrite Hz|].
      rewrite <- slot_after_step by lia. apply IH; lia.
    + apply IH. lia.
Qed.

Lemma probe_defined stop pair n :
  pair < c -> n <= c -> is_Some (probe stop map pair n).
Proof.
  intros Hp Hn. pose proof (probe_spec stop pair n Hp Hn) as H.
  destruct (probe stop map pair n); [eauto|done].
Qed.

(** A probe of the whole table misses only if no slot passes the test. *)
Lemma probe_full_miss stop pair i :
  pair < c -> probe stop map pair c = Some None ->
  slot_test stop map i = false.
Proof.
  intros Hp H. pose proof (probe_spec stop pair c Hp (le_n _)) as Hs.
  rewrite H in Hs.
  destruct (slot_test stop map i) eqn:Hi; [|done].
  apply slot_test_lt in Hi as Hlt.
  set (t := if decide (pair <= i) then i - pair else i + c - pair).
  assert (t < c) as Ht by (subst t; case_decide; lia).
  assert (slot_after c pair t = i) as Hi'.
  { unfold slot_after. subst t. repeat case_decide; lia. }
  specialize (Hs t Ht). rewrite Hi' in Hs. congruence.
Qed.

Lemma probe_full_hit stop pair i :
  pair < c -> slot_test stop map i = true ->
  exists j, probe stop map pair c = Some (Some j).
Proof.
  intros Hp Hi.
  destruct (probe_defined stop pair c Hp (le_n _)) as [[j|] Hr]; [eauto|].
  rewrite (probe_full_miss stop pair i Hp Hr) in Hi. done.
Qed.

(** A probe of the other [c - 1] slots misses only if none of them passes
    the test. *)
Lemma probe_others_miss stop i j :
  i < c -> probe stop map (pair_step map i) (c - 1) = Some None ->
  j <> i -> slot_test stop map j = false.
Proof.
  intros Hi H Hne.
  pose proof (probe_spec stop _ (c - 1) (pair_step_lt i Hi)) as Hs.
  rewrite H in Hs. specialize (Hs ltac:(lia)).
  destruct (slot_test stop map j) eqn:Hj; [|done].
  apply slot_test_lt in Hj as Hlt.
  set (t := if decide (i < j) then j - i - 1 else j + c - i - 1).
  assert (t < c - 1) as Ht by (subst t; case_decide; lia).
  assert (slot_after c (pair_step map i) t = j) as Hj'.
  { rewrite slot_after_step by lia.
    unfold slot_after. subst t. repeat case_decide; lia. }
  specialize (Hs t Ht). rewrite Hj' in Hs. congruence.
Qed.

Lemma probe_others_hit stop i j :
  i < c -> probe stop map (pair_step map i) (c - 1) = Some (Some j) ->
  j <> i /\ slot_test stop map j = true.
Proof.
  intros Hi H.
  pose proof (probe_spec stop _ (c - 1) (pair_step_lt i Hi)) as Hs.
  rewrite H in Hs. destruct Hs as (t & Ht & -> & Hj & _); [lia|].
  split; [|done].
  rewrite slot_after_step by lia.
  unfold slot_after. case_decide; lia.
Qed.
End WellFormed.

(** ** The operations in terms of probes *)

Lemma hash_capacity map map' k :
  capacity map' = capacity map -> hash_map_hash map' k = hash_map_hash map k.
Proof. intros H. unfold hash_map_hash. by rewrite H. Qed.

Lemma hash_range map k :
  wf map ->
  exists h, hash_map_hash map k = Some h /\
            (Z.to_nat h < length (pairs map))%nat.
Proof.
  intros [Hpos Hmax Hlen Hsz]. unfold hash_map_hash.
  destruct (Z.eqb_spec (capacity map) 0) as [?|_]; [lia|].
  eexists. split; [done|].
  pose proof (Z.mod_pos_bound (to_size_t k) (capacity map) Hpos). lia.
Qed.

Lemma find_hit_inv map k j :
  hash_map_find map k = Some (Some j) ->
  exists h p, hash_map_hash map k = Some h /\
    probe (matches k) map (Z.to_nat h) (Z.to_nat (capacity map))
      = Some (Some j) /\
    pairs map !! j = Some p /\ matches k p = true.
Proof.
  unfold hash_map_find. destruct (hash_map_hash map k) as [h|]; [|done].
  simpl. rewrite find_loop_probe. intros H.
  destruct (probe_hit_lookup _ _ _ _ _ H) as (p & Hp & Hm). eauto 10.
Qed.

Lemma insert_true_inv map k v map' :
  hash_map_insert map k v = Some (true, map') ->
  exists h j p, hash_map_hash map k = Some h /\
    probe (free_or_same k) map (Z.to_nat h) (Z.to_nat (capacity map))
      = Some (Some j) /\
    pairs map !! j = Some p /\ string_empty (value p) = true /\
    map' = placed map j k v /\
    Qle_bool 1 (hash_map_load_factor map) = false.
Proof.
  unfold hash_map_insert.
  destruct (Qle_bool 1 (hash_map_load_factor map)); [done|].
  destruct (hash_map_hash map k) as [h|]; [|done]. simpl.
  rewrite insert_loop_probe.
  destruct (probe _ _ _ _) as [[j|]|] eqn:Hpr; [|done..].
  destruct (pairs map !! j) as [p|] eqn:Hp; [|done].
  destruct (string_empty (value p)) eqn:He; [|done].
  intros [= <-]. eauto 10.
Qed.

Lemma remove_true_inv map k map' :
  hash_map_remove map k = Some (true, map') ->
  exists h j p, hash_map_hash map k = Some h /\
    probe (matches k) map (Z.to_nat h) (Z.to_nat (capacity map))
      = Some (Some j) /\
    pairs map !! j = Some p /\ matches k p = true /\
    map' = vacated map j p.
Proof.
  unfold hash_map_remove.
  destruct (hash_map_hash map k) as [h|]; [|done]. simpl.
  rewrite remove_loop_probe.
  destruct (probe _ _ _ _) as [[j|]|] eqn:Hpr; [|done..].
  destruct (probe_hit_lookup _ _ _ _ _ Hpr) as (p & Hp & Hm).
  rewrite Hp. intros [= <-]. eauto 10.
Qed.

(** Finding [k] in a table that differs from [map] in slot [j] only, when
    the probe for [k] in [map] stopped at [j] and the new slot [j] holds a
    non-empty value under key [k]. *)
Lemma find_after_store (stop : HashMapPair -> bool) map k h j q sz :
  hash_map_hash map k = Some h ->
  probe stop map (Z.to_nat h) (Z.to_nat (capacity map)) = Some (Some j) ->
  (forall p, stop p = false -> matches k p = false) ->
  matches k q = true ->
  hash_map_find (mkMap (capacity map) sz (<[j := q]> (pairs map))) k
    = Some (Some j).
Proof.
  intros Hh Hpr Hstop Hq.
  unfold hash_map_find. rewrite (hash_capacity map) by done. rewrite Hh.
  simpl. rewrite find_loop_probe.
  destruct (probe_hit_lookup _ _ _ _ _ Hpr) as (p & Hp & Hs).
  apply lookup_lt_Some in Hp as Hlt.
  apply (probe_transfer map stop); [done| | | |exact Hpr]; simpl.
  - apply length_insert.
  - intros i Hi. unfold slot_test in *. simpl.
    destruct (decide (i = j)) as [->|Hne].
    + rewrite Hp in Hi. congruence.
    + rewrite list_lookup_insert_ne by done.
      destruct (pairs map !! i); [by apply Hstop|done].
  - unfold slot_test. simpl. by rewrite list_lookup_insert_eq.
Qed.

(** The full check compares the two counters. *)
Lemma load_factor_full map :
  0 < capacity map ->
  Qle_bool 1 (hash_map_load_factor map) = (capacity map <=? size map).
Proof.
  intros Hpos. unfold hash_map_load_factor.
  destruct (capacity map) as [|c|c] eqn:Hc; try lia.
  apply eq_true_iff_eq. rewrite Qle_bool_iff, Z.leb_le.
  unfold Qle, Qdiv, Qmult, Qinv, inject_Z. simpl. lia.
Qed.

Lemma insert_full map k v :
  wf map -> capacity map <= size map ->
  hash_map_insert map k v = Some (false, map).
Proof.
  intros Hwf Hfull. unfold hash_map_insert.
  rewrite load_factor_full by apply Hwf.
  destruct (Z.leb_spec (capacity map) (size map)); [done|lia].
Qed.

(** ** Insert, find and contains *)

Lemma insert_find_slot map k v map' :
  string_empty v = false ->
  hash_map_insert map k v = Some (true, map') ->
  exists j, hash_map_find map' k = Some (Some j) /\
            pairs map' !! j = Some (mkPair k v).
Proof.
  intros Hv Hins.
  destruct (insert_true_inv _ _ _ _ Hins)
    as (h & j & p & Hh & Hpr & Hp & He & -> & _).
  exists j. split.
  - apply (find_after_store (free_or_same k) map k h); [done|done| |].
    + intros q. unfold free_or_same, matches.
      destruct (string_empty (value q)), (key q =? k); done.
    + unfold matches, string_create_from. simpl. by rewrite Z.eqb_refl, Hv.
  - simpl. apply lookup_lt_Some in Hp. by rewrite list_lookup_insert_eq.
Qed.

(** C1, as amended: if [hash_map_insert map k v] returns true and [v] is not
    the empty text, then [hash_map_find] returns the slot that now holds
    [k] with a value equal to [v], and [hash_map_contains] returns true.
    This holds for every map state. *)
Theorem insert_then_find map k v map' :
  string_empty v = false ->
  hash_map_insert map k v = Some (true, map') ->
  exists j, hash_map_find map' k = Some (Some j) /\
            pairs map' !! j = Some (mkPair k v) /\
            hash_map_contains map' k = Some true.
Proof.
  intros Hv Hins.
  destruct (insert_find_slot _ _ _ _ Hv Hins) as (j & Hfind & Hj).
  exists j. repeat split; [done..|].
  unfold hash_map_contains. by rewrite Hfind.
Qed.

Lemma insert_then_find_witness :
  exists j, hash_map_find collided4 4 = Some (Some j) /\
            pairs collided4 !! j = Some (mkPair 4 "b"%string) /\
            hash_map_contains collided4 4 = Some true.
Proof.
  apply (insert_then_find (mkMap 4 1 [mkPair 0 "a"%string; zero_pair; zero_pair; zero_pair])
           4 "b"%string collided4); reflexivity.
Defined.

(** C1 as stated fails for the empty text: the insert returns true, but the
    slot still counts as empty, so find returns NULL and contains false. *)
Lemma insert_empty_value_not_found :
  hash_map_create_with true true 4 = Some table4 /\
  hash_map_insert table4 0 EmptyString = Some (true, mkMap 4 1 (replicate 4 zero_pair)) /\
  hash_map_find (mkMap 4 1 (replicate 4 zero_pair)) 0 = Some None /\
  hash_map_contains (mkMap 4 1 (replicate 4 zero_pair)) 0 = Some false.
Proof. repeat split; reflexivity. Qed.

(** C5 as stated fails when the first value is the empty text: the slot
    still counts as empty, so the second insert of the same key succeeds,
    overwrites it and increments [size] again. *)
Lemma duplicate_insert_after_empty_value :
  hash_map_insert table4 0 EmptyString
    = Some (true, mkMap 4 1 (replicate 4 zero_pair)) /\
  hash_map_insert (mkMap 4 1 (replicate 4 zero_pair)) 0 "b"%string
    = Some (true, mkMap 4 2 [mkPair 0 "b"%string; zero_pair; zero_pair; zero_pair]).
Proof. split; reflexivity. Qed.

(** ** Removal and the other keys *)

(** C4: after [hash_map_remove map k1] succeeds, [hash_map_find] returns
    for every other key [k2] the slot it returned before, and that slot is
    unchanged.  In particular a key that shares the home slot of [k1] and
    was placed later in the same probe run is still found, with its value. *)
Theorem remove_keeps_other_keys map k1 k2 map' j :
  k1 <> k2 ->
  hash_map_find map k2 = Some (Some j) ->
  hash_map_remove map k1 = Some (true, map') ->
  hash_map_find map' k2 = Some (Some j) /\ pairs map' !! j = pairs map !! j.
Proof.
  intros Hne Hfind Hrem.
  destruct (remove_true_inv _ _ _ Hrem)
    as (h1 & j1 & p1 & _ & _ & Hp1 & Hm1 & ->).
  destruct (find_hit_inv _ _ _ Hfind) as (h2 & p2 & Hh2 & _ & Hp2 & Hm2).
  unfold matches in Hm1, Hm2.
  apply andb_true_iff in Hm1 as [Hk1 _]. apply andb_true_iff in Hm2 as [Hk2 _].
  apply Z.eqb_eq in Hk1, Hk2.
  split.
  - rewrite <- Hfind. unfold hash_map_find.
    rewrite (hash_capacity map) by done.
    destruct (hash_map_hash map k2) as [h|]; [simpl|done].
    rewrite !find_loop_probe.
    apply probe_ext; [done|apply length_insert|].
    intros i. unfold slot_test. simpl.
    destruct (decide (i = j1)) as [->|Hi].
    + rewrite Hp1. apply lookup_lt_Some in Hp1.
      rewrite list_lookup_insert_eq by done.
      unfold matches. simpl.
      destruct (Z.eqb_spec (key p1) k2); [congruence|done].
    + by rewrite list_lookup_insert_ne.
  - simpl. apply list_lookup_insert_ne. intros ->. congruence.
Qed.

Lemma remove_keeps_other_keys_witness :
  hash_map_find holed4 4 = Some (Some 1%nat) /\
  pairs holed4 !! 1%nat = pairs collided4 !! 1%nat.
Proof.
  apply (remove_keeps_other_keys collided4 0 4 holed4 1); [lia|reflexivity..].
Defined.

(** ** Insert-or-assign *)

(** C6, as amended: for a key [k] that [hash_map_find] finds in slot [j],
    [hash_map_insert_or_assign map k v2] returns true, stores [v2] in slot
    [j] and changes neither another slot nor [size]; no full check is made
    on this path, so it succeeds at any load factor; afterwards
    [hash_map_find] returns slot [j] again, now holding [v2], provided [v2]
    is not the empty text.  For a key that is not found the call is
    [hash_map_insert], which fails on a full map. *)
Theorem insert_or_assign_overwrite map k v2 :
  wf map ->
  (forall j, hash_map_find map k = Some (Some j) ->
     exists map',
       hash_map_insert_or_assign map k v2 = Some (true, map') /\
       capacity map' = capacity map /\
       size map' = size map /\
       pairs map' = <[j := mkPair k v2]> (pairs map) /\
       (string_empty v2 = false -> hash_map_find map' k = Some (Some j))) /\
  (hash_map_find map k = Some None ->
     hash_map_insert_or_assign map k v2 = hash_map_insert map k v2 /\
     (capacity map <= size map ->
      hash_map_insert_or_assign map k v2 = Some (false, map))).
Proof.
  intros Hwf. split.
  - intros j Hfind.
    destruct (find_hit_inv _ _ _ Hfind) as (h & p & Hh & Hpr & Hp & Hm).
    assert (Hk : key p = k).
    { unfold matches in Hm. apply andb_true_iff in Hm as [Hk _].
      by apply Z.eqb_eq in Hk. }
    exists (assigned map j p v2). repeat split.
    + unfold hash_map_insert_or_assign, store_value. rewrite Hfind. simpl.
      by rewrite Hp.
    + simpl. by rewrite Hk.
    + intros Hv. unfold assigned.
      apply (find_after_store (matches k) map k h); [done|done|done|].
      unfold matches, string_create_from. simpl.
      by rewrite Hk, Z.eqb_refl, Hv.
  - intros Hfind.
    assert (hash_map_insert_or_assign map k v2 = hash_map_insert map k v2) as E.
    { unfold hash_map_insert_or_assign. by rewrite Hfind. }
    split; [done|]. intros Hfull. rewrite E. by apply insert_full.
Qed.

Lemma insert_or_assign_overwrite_witness :
  (forall j, hash_map_find full2 1 = Some (Some j) ->
     exists map',
       hash_map_insert_or_assign full2 1 "z"%string = Some (true, map') /\
       capacity map' = capacity full2 /\
       size map' = size full2 /\
       pairs map' = <[j := mkPair 1 "z"%string]> (pairs full2) /\
       (string_empty "z"%string = false ->
        hash_map_find map' 1 = Some (Some j))) /\
  (hash_map_find full2 1 = Some None ->
     hash_map_insert_or_assign full2 1 "z"%string
       = hash_map_insert full2 1 "z"%string /\
     (capacity full2 <= size full2 ->
      hash_map_insert_or_assign full2 1 "z"%string = Some (false, full2))).
Proof.
  apply (insert_or_assign_overwrite full2 1 "z"%string).
  constructor; unfold max_slots, size_t_modulus; simpl; lia.
Defined.

(** C6 as stated fails when the new value is the empty text: the call
    returns true, but it empties the slot, and find returns NULL. *)
Lemma insert_or_assign_empty_value_not_found :
  hash_map_find collided4 4 = Some (Some 1%nat) /\
  hash_map_insert_or_assign collided4 4 EmptyString
    = Some (true, mkMap 4 2 [mkPair 0 "a"%string; mkPair 4 string_zero;
                             zero_pair; zero_pair]) /\
  hash_map_find (mkMap 4 2 [mkPair 0 "a"%string; mkPair 4 string_zero;
                            zero_pair; zero_pair]) 4 = Some None.
Proof. repeat split; reflexivity. Qed.

(** ** The counters *)

Lemma occupied_count_insert (ps : list HashMapPair) j p q :
  ps !! j = Some p ->
  (length (filter (fun p => occupied p = true) (<[j := q]> ps))
     + (if occupied p then 1 else 0)
   = length (filter (fun p => occupied p = true) ps)
     + (if occupied q then 1 else 0))%nat.
Proof.
  intros Hj. apply lookup_lt_Some in Hj as Hlt.
  rewrite insert_take_drop by done.
  rewrite <- (take_drop_middle ps j p Hj) at 3.
  rewrite !filter_app, !filter_cons, !length_app.
  destruct (occupied p), (occupied q); repeat case_decide; simpl; try done; lia.
Qed.

Lemma occupied_count_replicate n :
  filter (fun p => occupied p = true) (replicate n zero_pair) = [].
Proof. induction n as [|n IH]; [done|]. simpl. by rewrite filter_cons_False. Qed.

(** Fewer occupied slots than slots: some slot is empty. *)
Lemma free_slot_exists (ps : list HashMapPair) :
  (length (filter (fun p => occupied p = true) ps) < length ps)%nat ->
  exists i p, ps !! i = Some p /\ string_empty (value p) = true.
Proof.
  induction ps as [|q ps IH]; simpl; [lia|].
  destruct (string_empty (value q)) eqn:He.
  - intros _. exists 0%nat, q. by split.
  - rewrite filter_cons_True by (unfold occupied; by rewrite He).
    simpl. intros Hlt.
    destruct IH as (i & p & Hi & Hp); [lia|]. exists (S i), p. by split.
Qed.

Lemma clear_loop_spec (ps : list HashMapPair) i n :
  (i + n <= length ps)%nat ->
  exists ps', clear_loop ps i n = Some ps' /\ length ps' = length ps /\
    forall x, ps' !! x =
      if decide (i <= x < i + n)%nat then Some zero_pair else ps !! x.
Proof.
  revert ps i. induction n as [|n IH]; intros ps i Hle; simpl.
  - exists ps. repeat split. intros x. case_decide; [lia|done].
  - destruct (ps !! i) eqn:Hi.
    2:{ apply lookup_ge_None in Hi. lia. }
    destruct (IH (<[i := zero_pair]> ps) (S i)) as (ps' & Hps' & Hlen & Hlk).
    { rewrite length_insert. lia. }
    exists ps'. split; [done|]. split; [by rewrite Hlen, length_insert|].
    intros x. rewrite Hlk. destruct (decide (x = i)) as [->|Hne].
    + repeat case_decide; try lia. rewrite list_lookup_insert_eq; [done|lia].
    + rewrite list_lookup_insert_ne by done. repeat case_decide; done || lia.
Qed.

Lemma clear_spec map :
  wf map ->
  hash_map_clear map = Some (cleared map).
Proof.
  intros Hwf. unfold hash_map_clear, cleared. rewrite capacity_length by done.
  destruct (clear_loop_spec (pairs map) 0 (length (pairs map)) (le_n _))
    as (ps' & -> & Hlen & Hlk).
  simpl. do 2 f_equal. apply list_eq. intros x. rewrite Hlk.
  case_decide.
  - rewrite lookup_replicate_2; [done|lia].
  - rewrite lookup_ge_None_2 by lia. symmetry.
    apply lookup_replicate_None. lia.
Qed.

(** ** Every operation is defined on a well-formed map *)

Lemma matches_occupied k p : matches k p = true -> occupied p = true.
Proof. unfold matches, occupied. by intros [_ ?]%andb_true_iff. Qed.

Lemma find_cases map k :
  wf map ->
  (hash_map_find map k = Some None /\
   forall i p, pairs map !! i = Some p -> matches k p = false) \/
  (exists j p, hash_map_find map k = Some (Some j) /\
               pairs map !! j = Some p /\ matches k p = true).
Proof.
  intros Hwf. destruct (hash_range map k Hwf) as (h & Hh & Hlt).
  unfold hash_map_find. rewrite Hh. simpl.
  rewrite find_loop_probe, capacity_length by done.
  destruct (probe_defined map Hwf (matches k) (Z.to_nat h) _ Hlt (le_n _))
    as [[j|] Hr]; rewrite Hr.
  - right. destruct (probe_hit_lookup _ _ _ _ _ Hr) as (p & ? & ?). eauto.
  - left. split; [done|]. intros i p Hp.
    pose proof (probe_full_miss map Hwf _ _ i Hlt Hr) as Hi.
    unfold slot_test in Hi. by rewrite Hp in Hi.
Qed.

Lemma insert_cases map k v :
  wf map ->
  hash_map_insert map k v = Some (false, map) \/
  (exists j p, size map < capacity map /\ pairs map !! j = Some p /\
     string_empty (value p) = true /\
     hash_map_insert map k v = Some (true, placed map j k v)).
Proof.
  intros Hwf. destruct (hash_range map k Hwf) as (h & Hh & Hlt).
  unfold hash_map_insert. rewrite load_factor_full by apply Hwf.
  destruct (Z.leb_spec (capacity map) (size map)) as [|Hsz]; [by left|].
  rewrite Hh. simpl. rewrite insert_loop_probe, capacity_length by done.
  destruct (probe_defined map Hwf (free_or_same k) (Z.to_nat h) _ Hlt (le_n _))
    as [[j|] Hr]; rewrite Hr; [|by left].
  destruct (probe_hit_lookup _ _ _ _ _ Hr) as (p & Hp & _). rewrite Hp.
  destruct (string_empty (value p)) eqn:He; [|by left].
  right. eauto 10.
Qed.

(** With room left, a free slot and no slot holding [k], the insert
    succeeds. *)
Lemma insert_succeeds map k v :
  wf map -> size map < capacity map ->
  (exists i p, pairs map !! i = Some p /\ string_empty (value p) = true) ->
  (forall i p, pairs map !! i = Some p -> matches k p = false) ->
  exists j p, pairs map !! j = Some p /\ string_empty (value p) = true /\
    hash_map_insert map k v = Some (true, placed map j k v).
Proof.
  intros Hwf Hsz (i & q & Hq & Hqe) Habs.
  destruct (hash_range map k Hwf) as (h & Hh & Hlt).
  unfold hash_map_insert. rewrite load_factor_full by apply Hwf.
  destruct (Z.leb_spec (capacity map) (size map)); [lia|].
  rewrite Hh. simpl. rewrite insert_loop_probe, capacity_length by done.
  destruct (probe_full_hit map Hwf (free_or_same k) (Z.to_nat h) i Hlt)
    as (j & Hr).
  { unfold slot_test, free_or_same. by rewrite Hq, Hqe. }
  rewrite Hr. destruct (probe_hit_lookup _ _ _ _ _ Hr) as (p & Hp & Hs).
  rewrite Hp. destruct (string_empty (value p)) eqn:He; [eauto 10|].
  specialize (Habs j p Hp). unfold free_or_same, matches in *.
  rewrite He in *. simpl in *. rewrite Hs in Habs. done.
Qed.

Lemma remove_cases map k :
  wf map ->
  hash_map_remove map k = Some (false, map) \/
  (exists j p, pairs map !! j = Some p /\ matches k p = true /\
     hash_map_remove map k = Some (true, vacated map j p)).
Proof.
  intros Hwf. destruct (hash_range map k Hwf) as (h & Hh & Hlt).
  unfold hash_map_remove. rewrite Hh. simpl.
  rewrite remove_loop_probe, capacity_length by done.
  destruct (probe_defined map Hwf (matches k) (Z.to_nat h) _ Hlt (le_n _))
    as [[j|] Hr]; rewrite Hr; [|by left].
  destruct (probe_hit_lookup _ _ _ _ _ Hr) as (p & Hp & Hm). rewrite Hp.
  right. eauto 10.
Qed.

Lemma run_effect map o :
  wf map -> exists map', run map o = Some map' /\ effect map o map'.
Proof.
  intros Hwf. destruct o as [k v|k v|k|]; simpl.
  - destruct (insert_cases map k v Hwf) as [->|(j & p & ? & ? & ? & ->)];
      simpl; eexists; (split; [done|]).
    + constructor.
    + by eapply effect_placed.
  - unfold hash_map_insert_or_assign.
    destruct (find_cases map k Hwf) as [[-> _]|(j & p & -> & Hp & Hm)]; simpl.
    + destruct (insert_cases map k v Hwf) as [->|(j & p & ? & ? & ? & ->)];
        simpl; eexists; (split; [done|]).
      * constructor.
      * by eapply effect_placed.
    + unfold store_value. rewrite Hp. simpl. eexists. split; [done|].
      apply (effect_assigned map _ j p v); [done|done|].
      by eapply matches_occupied.
  - destruct (remove_cases map k Hwf) as [->|(j & p & ? & ? & ->)];
      simpl; eexists; (split; [done|]).
    + constructor.
    + constructor; [done|]. by eapply matches_occupied.
  - rewrite clear_spec by done. eexists. split; [done|]. constructor.
Qed.

(** ** Invariants of the reachable states *)

Lemma to_size_t_range z : 0 <= to_size_t z < size_t_modulus.
Proof. apply Z.mod_pos_bound. done. Qed.

Lemma to_size_t_small z : 0 <= z <= max_slots -> to_size_t z = z.
Proof.
  intros Hz. apply Z.mod_small. unfold max_slots, size_t_modulus in *. lia.
Qed.

Lemma effect_wf map o map' : wf map -> effect map o map' -> wf map'.
Proof.
  intros [Hpos Hmax Hlen Hsz] He.
  destruct He; constructor; simpl;
    rewrite ?length_insert, ?length_replicate;
    auto using to_size_t_range.
  unfold size_t_modulus. lia.
Qed.

Lemma count_occupied_le map : wf map -> count_occupied map <= capacity map.
Proof.
  intros Hwf. destruct Hwf as [_ _ <- _]. unfold count_occupied.
  pose proof (length_filter (fun p => occupied p = true) (pairs map)). lia.
Qed.

Lemma effect_counters map o map' :
  wf map -> counters_ok map -> effect map o map' -> counters_ok map'.
Proof.
  intros Hwf Hok He. pose proof Hwf as [Hpos Hmax Hlen Hsz].
  unfold counters_ok, count_occupied in *.
  destruct He as [o|o j p k v _ Hlt Hp Hpe|o j p v _ Hp Hpo|k j p Hp Hpo|];
    simpl.
  - done.
  - pose proof (occupied_count_insert (pairs map) j p
                  (mkPair k (string_create_from v)) Hp) as Hc.
    assert (occupied p = false) as Hpo by (unfold occupied; by rewrite Hpe).
    rewrite Hpo in Hc. rewrite to_size_t_small by lia.
    destruct (occupied (mkPair k (string_create_from v))); lia.
  - pose proof (occupied_count_insert (pairs map) j p
                  (mkPair (key p) (string_create_from v)) Hp) as Hc.
    rewrite Hpo in Hc.
    destruct (occupied (mkPair (key p) (string_create_from v))); lia.
  - pose proof (occupied_count_insert (pairs map) j p
                  (mkPair (key p) string_zero) Hp) as Hc.
    rewrite Hpo in Hc. simpl in Hc.
    rewrite to_size_t_small by lia. lia.
  - rewrite occupied_count_replicate. simpl. lia.
Qed.

Lemma effect_counters_exact map o map' :
  wf map -> count_occupied map = size map ->
  stores nonempty_text o -> effect map o map' ->
  count_occupied map' = size map'.
Proof.
  intros Hwf Hok Hst He. pose proof Hwf as [Hpos Hmax Hlen Hsz].
  pose proof (count_occupied_le map Hwf) as Hle.
  unfold count_occupied in *.
  destruct He as [o|o j p k v Hv Hlt Hp Hpe|o j p v Hv Hp Hpo|k j p Hp Hpo|];
    simpl.
  - done.
  - pose proof (occupied_count_insert (pairs map) j p
                  (mkPair k (string_create_from v)) Hp) as Hc.
    assert (occupied p = false) as Hpo by (unfold occupied; by rewrite Hpe).
    assert (occupied (mkPair k (string_create_from v)) = true) as Hvo.
    { unfold occupied, string_create_from. simpl. by rewrite (Hv _ Hst). }
    rewrite Hpo, Hvo in Hc. rewrite to_size_t_small by lia. lia.
  - pose proof (occupied_count_insert (pairs map) j p
                  (mkPair (key p) (string_create_from v)) Hp) as Hc.
    assert (occupied (mkPair (key p) (string_create_from v)) = true) as Hvo.
    { unfold occupied, string_create_from. simpl. by rewrite (Hv _ Hst). }
    rewrite Hpo, Hvo in Hc. lia.
  - pose proof (occupied_count_insert (pairs map) j p
                  (mkPair (key p) string_zero) Hp) as Hc.
    rewrite Hpo in Hc. simpl in Hc.
    rewrite to_size_t_small by lia. lia.
  - by rewrite occupied_count_replicate.
Qed.

Lemma create_with_inv malloc_ok calloc_ok cap map :
  cap <= max_slots ->
  hash_map_create_with malloc_ok calloc_ok cap = Some map ->
  wf map /\ count_occupied map = 0 /\ size map = 0 /\ capacity map = cap.
Proof.
  intros Hcap. unfold hash_map_create_with.
  destruct (Z.leb_spec cap 0); [done|].
  destruct malloc_ok, calloc_ok; simpl; try done.
  intros [= <-]. split; [|split; [|done]].
  - constructor; simpl; [lia|done| |unfold size_t_modulus; lia].
    rewrite length_replicate. lia.
  - unfold count_occupied. simpl. by rewrite occupied_count_replicate.
Qed.

Lemma reachable_wf P map :
  reachable_storing P map -> wf map /\ counters_ok map.
Proof.
  induction 1 as [mo co cap map Hcap Hc|map o map' _ [IHwf IHok] _ Hrun].
  - destruct (create_with_inv _ _ _ _ Hcap Hc) as (Hwf & Hn & Hs & Hcp).
    split; [done|]. unfold counters_ok. destruct Hwf. lia.
  - destruct (run_effect map o IHwf) as (map'' & Hrun' & He).
    rewrite Hrun in Hrun'. injection Hrun' as <-.
    eauto using effect_wf, effect_counters.
Qed.

Lemma reachable_exact map :
  reachable_storing nonempty_text map -> count_occupied map = size map.
Proof.
  induction 1 as [mo co cap map Hcap Hc|map o map' Hr IH Hst Hrun].
  - destruct (create_with_inv _ _ _ _ Hcap Hc) as (Hwf & Hn & Hs & Hcp). lia.
  - destruct (reachable_wf _ _ Hr) as [Hwf _].
    destruct (run_effect map o Hwf) as (map'' & Hrun' & He).
    rewrite Hrun in Hrun'. injection Hrun' as <-.
    eauto using effect_counters_exact.
Qed.

Lemma reachable_run_all P map os map' :
  reachable_storing P map -> Forall (stores P) os ->
  run_all map os = Some map' -> reachable_storing P map'.
Proof.
  unfold run_all. intros Hr Hos. revert map Hr.
  induction Hos as [|o os Ho _ IH]; intros map Hr; simpl.
  - by intros [= <-].
  - destruct (run map o) as [map1|] eqn:Hrun.
    + apply IH. by eapply reach_run.
    + intros Hnone. exfalso. clear -Hnone.
      induction os as [|o' os IH']; simpl in *; [done|by apply IH'].
Qed.

Lemma reachable_table4 P : reachable_storing P table4.
Proof. apply (reach_create P true true 4); [by unfold max_slots|done]. Qed.

Lemma reachable_storing_weaken (P Q : HashMapValue -> Prop) map :
  (forall v, P v -> Q v) -> reachable_storing P map -> reachable_storing Q map.
Proof.
  intros HPQ. induction 1 as [mo co cap map Hcap Hc|map o map' _ IH Hst Hrun].
  - by eapply reach_create.
  - eapply reach_run; [done| |done]. destruct o; simpl in *; auto.
Qed.

Lemma reachable_collided4 : reachable_storing nonempty_text collided4.
Proof.
  apply (reachable_run_all _ table4
           [Insert 0 "a"%string; Insert 4 "b"%string]);
    [apply reachable_table4| |reflexivity].
  repeat constructor.
Qed.

(** ** The size counter *)

(** C10, as amended: in every state reachable from a freshly created map by
    insert, insert_or_assign, remove and clear operations, the number of
    slots whose value is non-empty is at most [size], and [size] is at most
    [capacity]; when no value handed to insert or insert_or_assign is the
    empty text, [size] equals the number of slots whose value is
    non-empty. *)
Theorem size_counts_occupied (P : HashMapValue -> Prop) map :
  reachable_storing P map ->
  (count_occupied map <= size map /\ size map <= capacity map) /\
  ((forall v, P v -> nonempty_text v) -> size map = count_occupied map).
Proof.
  intros Hr. split.
  - destruct (reachable_wf _ _ Hr) as [_ Hok]. exact Hok.
  - intros HP. symmetry. apply reachable_exact.
    by apply (reachable_storing_weaken P).
Qed.

Lemma size_counts_occupied_witness :
  (count_occupied collided4 <= size collided4 /\
   size collided4 <= capacity collided4) /\
  ((forall v, nonempty_text v -> nonempty_text v) ->
   size collided4 = count_occupied collided4).
Proof.
  apply (size_counts_occupied nonempty_text collided4).
  apply reachable_collided4.
Defined.

(** C10 as stated fails after an insert of the empty text: [size] is
    incremented although no slot has become non-empty. *)
Lemma size_exceeds_occupied_count :
  reachable (mkMap 4 1 (replicate 4 zero_pair)) /\
  size (mkMap 4 1 (replicate 4 zero_pair)) = 1 /\
  count_occupied (mkMap 4 1 (replicate 4 zero_pair)) = 0.
Proof.
  split; [|done].
  apply (reach_run _ table4 (Insert 0 EmptyString));
    [apply reachable_table4|done|reflexivity].
Qed.

(** ** The full check *)

(** When every slot counts as occupied, no slot has an empty value. *)
Lemma all_slots_occupied map i p :
  count_occupied map = Z.of_nat (length (pairs map)) ->
  pairs map !! i = Some p -> string_empty (value p) = false.
Proof.
  unfold count_occupied. intros Hc Hp.
  destruct (string_empty (value p)) eqn:He; [|done].
  assert (p ∈ pairs map) as Hin by (apply list_elem_of_lookup; eauto).
  pose proof (length_filter_lt (fun p => occupied p = true) (pairs map) p Hin)
    as Hlt.
  unfold occupied in Hlt at 1. rewrite He in Hlt. simpl in Hlt.
  specialize (Hlt ltac:(done)). lia.
Qed.

(** C3, as amended: [hash_map_insert] returns false and leaves the map as
    it was whenever the load factor is at least 1.  The check precedes the
    insertion, so it does not block the insert that brings the load factor
    to 1: in a reachable state with [size = capacity - 1] the insert of a
    key that is not contained succeeds, writes the pair into a slot whose
    value was empty and brings [size] to [capacity] and the load factor to
    exactly 1; only after that is every insert refused.  When no value
    handed to the map, this one included, is the empty text, the slot
    written was the last free one: afterwards every slot holds a non-empty
    value. *)
Theorem insert_full_check (P : HashMapValue -> Prop) map k v :
  reachable_storing P map ->
  ((1 <= hash_map_load_factor map)%Q ->
   hash_map_insert map k v = Some (false, map)) /\
  (size map = capacity map - 1 ->
   hash_map_contains map k = Some false ->
   exists map' j p,
     hash_map_insert map k v = Some (true, map') /\
     pairs map !! j = Some p /\ string_empty (value p) = true /\
     pairs map' = <[j := mkPair k v]> (pairs map) /\
     size map' = capacity map' /\
     (hash_map_load_factor map' == 1)%Q /\
     (forall k' v', hash_map_insert map' k' v' = Some (false, map')) /\
     ((forall v', P v' -> nonempty_text v') -> nonempty_text v ->
      forall i q, pairs map' !! i = Some q -> string_empty (value q) = false)).
Proof.
  intros Hr. destruct (reachable_wf _ _ Hr) as [Hwf Hok]. split.
  - intros Hfull. unfold hash_map_insert.
    apply Qle_bool_iff in Hfull. by rewrite Hfull.
  - intros Hsz Hc. pose proof Hwf as [Hpos Hmax Hlen Hsize].
    assert (Habs : forall i p, pairs map !! i = Some p -> matches k p = false).
    { destruct (find_cases map k Hwf) as [[_ H]|(j & p & Hf & _)]; [done|].
      unfold hash_map_contains in Hc. by rewrite Hf in Hc. }
    destruct (insert_succeeds map k v Hwf) as (j & p & Hp & Hpe & Hins);
      [lia| |done|].
    { apply free_slot_exists. unfold counters_ok, count_occupied in Hok. lia. }
    assert (Heff : effect map (Insert k v) (placed map j k v)).
    { by apply (effect_placed map _ j p); [|lia|..]. }
    assert (Hwf' : wf (placed map j k v)).
    { by apply (effect_wf map (Insert k v)). }
    assert (Hsz' : size (placed map j k v) = capacity (placed map j k v)).
    { simpl. rewrite to_size_t_small by lia. lia. }
    exists (placed map j k v), j, p.
    split; [done|]. split; [done|]. split; [done|]. split; [done|].
    split; [done|]. split; [|split].
    + unfold hash_map_load_factor. rewrite Hsz'. simpl.
      apply Qmult_inv_r. unfold Qeq, inject_Z. simpl. lia.
    + intros k' v'. apply insert_full; [done|lia].
    + intros HP Hv i q Hq.
      apply (all_slots_occupied (placed map j k v) i q); [|done].
      rewrite (effect_counters_exact map (Insert k v)); [|done| |done|done].
      * rewrite Hsz'. by destruct Hwf'.
      * apply reachable_exact. by apply (reachable_storing_weaken P).
Qed.

Lemma insert_full_check_witness :
  ((1 <= hash_map_load_factor half2)%Q ->
   hash_map_insert half2 1 "b"%string = Some (false, half2)) /\
  (size half2 = capacity half2 - 1 ->
   hash_map_contains half2 1 = Some false ->
   exists map' j p,
     hash_map_insert half2 1 "b"%string = Some (true, map') /\
     pairs half2 !! j = Some p /\ string_empty (value p) = true /\
     pairs map' = <[j := mkPair 1 "b"%string]> (pairs half2) /\
     size map' = capacity map' /\
     (hash_map_load_factor map' == 1)%Q /\
     (forall k' v', hash_map_insert map' k' v' = Some (false, map')) /\
     ((forall v', nonempty_text v' -> nonempty_text v') ->
      nonempty_text "b"%string ->
      forall i q, pairs map' !! i = Some q -> string_empty (value q) = false)).
Proof.
  apply (insert_full_check nonempty_text half2 1 "b"%string).
  apply (reach_run _ table2 (Insert 0 "a"%string)).
  - apply (reach_create _ true true 2); [by unfold max_slots|reflexivity].
  - reflexivity.
  - reflexivity.
Defined.

(** C3 as stated fails: in a table of two slots the second insert, made
    after one successful insert, is not blocked; it fills the last slot. *)
Lemma last_slot_is_filled :
  hash_map_create_with true true 2 = Some table2 /\
  hash_map_insert table2 0 "a"%string
    = Some (true, half2) /\
  hash_map_insert half2 1 "b"%string
    = Some (true, full2).
Proof. repeat split; reflexivity. Qed.

(** ** Traversal *)

Lemma next_loop_probe map x n :
  next_loop map x n
  = probe occupied map
      (if Z.of_nat x =? capacity map then 0%nat else x) n.
Proof.
  revert x. induction n as [|n IH]; intros x; simpl; [done|].
  destruct (pairs map !! _) as [p|]; [|done].
  unfold occupied at 1. destruct (negb _); [done|].
  rewrite IH. done.
Qed.

Lemma next_pair_probe map i :
  hash_map_next_pair map (Some i)
  = probe occupied map (pair_step map i) (Z.to_nat (capacity map) - 1).
Proof. simpl. by rewrite next_loop_probe. Qed.

Section Traversal.
Variable map : HashMap.
Hypothesis Hwf : wf map.

Local Open Scope nat_scope.

Local Abbreviation occ_at := (fun i => slot_test occupied map i = true).
Local Abbreviation c := (length (pairs map)).

Lemma pair_step_succ i : S i < c -> pair_step map i = S i.
Proof.
  intros Hi. unfold pair_step. destruct Hwf.
  destruct (Z.eqb_spec (Z.of_nat (S i)) (capacity map)); lia.
Qed.

Lemma first_loop_probe pair n :
  pair + n <= c -> first_loop map pair n = probe occupied map pair n.
Proof.
  revert pair. induction n as [|n IH]; intros pair Hle; simpl; [done|].
  destruct (pairs map !! pair) as [p|]; [|done].
  unfold occupied at 1. destruct (negb _); [done|].
  destruct n as [|n]; [done|].
  rewrite pair_step_succ by lia. apply IH. lia.
Qed.

(** The first element of the occupied slots among [a, a + n). *)
Lemma filter_seq_head a n j rest :
  filter occ_at (seq a n) = j :: rest ->
  a <= j < a + n /\ slot_test occupied map j = true /\
  filter occ_at (seq j (a + n - j)) = j :: rest.
Proof.
  revert a. induction n as [|n IH]; intros a; simpl; [done|].
  rewrite filter_cons. case_decide as Ha.
  - intros [= <- <-]. repeat split; [lia..|done|].
    replace (a + S n - a) with (S n) by lia. simpl.
    by rewrite filter_cons_True.
  - intros H. destruct (IH _ H) as (Hj & Hoj & Hrest).
    repeat split; [lia..|done|].
    by replace (a + S n - j) with (S a + n - j) by lia.
Qed.

(** A probe that does not reach the end of the array returns the first
    occupied slot of the range. *)
Lemma probe_upward a n :
  a + n <= c ->
  probe occupied map a n = Some (head (filter occ_at (seq a n))).
Proof.
  revert a. induction n as [|n IH]; intros a Hle; simpl; [done|].
  destruct (pairs map !! a) as [p|] eqn:Hp.
  2:{ apply lookup_ge_None in Hp. lia. }
  assert (Hs : slot_test occupied map a = occupied p).
  { unfold slot_test. by rewrite Hp. }
  destruct (occupied p) eqn:Ho.
  - by rewrite filter_cons_True.
  - rewrite filter_cons_False by (rewrite Hs; done).
    destruct n as [|n]; [done|].
    rewrite pair_step_succ by lia. apply IH. lia.
Qed.

Lemma next_pair_defined i :
  i < c -> is_Some (hash_map_next_pair map (Some i)).
Proof.
  intros Hi. rewrite next_pair_probe, capacity_length by done.
  apply probe_defined; [done|by apply pair_step_lt|lia].
Qed.

(** From an occupied slot the chain lists the occupied slots up to the
    end of the array. *)
Lemma traverse_from_occupied m i :
  c - i <= m -> i < c -> slot_test occupied map i = true ->
  traverse_from map (Some i) (length (filter occ_at (seq i (c - i))))
  = Some (filter occ_at (seq i (c - i))).
Proof.
  revert i. induction m as [|m IH]; intros i Hm Hi Ho; [lia|].
  replace (c - i) with (S (c - S i)) by lia.
  cbn [seq]. rewrite filter_cons_True by done.
  cbn [length traverse_from].
  destruct (filter occ_at (seq (S i) (c - S i))) as [|j rest] eqn:Hl.
  - destruct (next_pair_defined i Hi) as [nxt ->]. done.
  - destruct (filter_seq_head _ _ _ _ Hl) as (Hj & Hoj & Hrest).
    replace (S i + (c - S i) - j) with (c - j) in Hrest by lia.
    assert (hash_map_next_pair map (Some i) = Some (Some j)) as ->.
    { rewrite next_pair_probe, capacity_length by done.
      apply (probe_fuel map occupied _ (c - S i)); [|lia].
      rewrite pair_step_succ by lia.
      rewrite probe_upward by lia. by rewrite Hl. }
    cbn [mbind option_bind].
    specialize (IH j). rewrite Hrest in IH.
    rewrite IH; [done|lia..|done].
Qed.

Lemma traverse_occupied :
  traverse map (length (occupied_slots map)) = Some (occupied_slots map).
Proof.
  unfold traverse, hash_map_first, occupied_slots.
  rewrite capacity_length by done.
  rewrite first_loop_probe, probe_upward by lia. cbn [mbind option_bind].
  destruct (filter occ_at (seq 0 c)) as [|j rest] eqn:Hl; [done|].
  destruct (filter_seq_head _ _ _ _ Hl) as (Hj & Hoj & Hrest).
  replace (0 + c - j) with (c - j) in Hrest by lia.
  cbn [head]. rewrite <- Hrest.
  apply (traverse_from_occupied c); [lia..|done].
Qed.

Lemma elem_of_occupied_slots i :
  i ∈ occupied_slots map <->
  exists p, pairs map !! i = Some p /\ string_empty (value p) = false.
Proof.
  unfold occupied_slots. rewrite list_elem_of_filter, elem_of_seq.
  unfold slot_test, occupied. split.
  - intros [Ho _]. destruct (pairs map !! i) as [p|]; [|done].
    exists p. split; [done|]. by destruct (string_empty (value p)).
  - intros (p & Hp & He). rewrite Hp, He. split; [done|].
    apply lookup_lt_Some in Hp. lia.
Qed.

Lemma contains_occupied k :
  hash_map_contains map k = Some true <->
  exists i p, i ∈ occupied_slots map /\ pairs map !! i = Some p /\ key p = k.
Proof.
  unfold hash_map_contains. split.
  - destruct (find_cases map k Hwf) as [[-> _]|(j & p & -> & Hp & Hm)];
      [done|]. intros _.
    unfold matches in Hm. apply andb_true_iff in Hm as [Hk He].
    exists j, p. rewrite elem_of_occupied_slots. repeat split.
    + exists p. split; [done|]. by destruct (string_empty (value p)).
    + done.
    + by apply Z.eqb_eq.
  - intros (i & p & Hi & Hp & Hk).
    apply elem_of_occupied_slots in Hi as (p' & Hp' & He).
    assert (p' = p) as -> by congruence.
    destruct (find_cases map k Hwf) as [[_ Hno]|(j & q & -> & _)]; [|done].
    specialize (Hno i p Hp). unfold matches in Hno.
    rewrite He in Hno. subst k. rewrite Z.eqb_refl in Hno. done.
Qed.

Lemma next_pair_none i :
  i < c ->
  hash_map_next_pair map (Some i) = Some None <->
  forall j, j ∈ occupied_slots map -> j = i.
Proof.
  intros Hi. rewrite next_pair_probe, capacity_length by done. split.
  - intros Hn j Hj. destruct (decide (j = i)) as [|Hne]; [done|].
    pose proof (probe_others_miss map Hwf occupied i j Hi Hn Hne) as Hf.
    unfold occupied_slots in Hj. apply list_elem_of_filter in Hj as [Ho _].
    congruence.
  - intros Hall.
    destruct (probe_defined map Hwf occupied (pair_step map i) (c - 1))
      as [[j|] Hr]; [by apply pair_step_lt|lia| |done].
    destruct (probe_others_hit map Hwf occupied i j Hi Hr) as [Hne Ho].
    destruct Hne. apply Hall. unfold occupied_slots.
    apply list_elem_of_filter. split; [done|].
    apply elem_of_seq. apply slot_test_lt in Ho. lia.
Qed.
End Traversal.

Lemma occupied_slots_count_from map pre ps :
  pairs map = pre ++ ps ->
  length (filter (fun i => slot_test occupied map i = true)
                 (seq (length pre) (length ps)))
  = length (filter (fun p => occupied p = true) ps).
Proof.
  revert pre. induction ps as [|x ps IH]; intros pre Hm; simpl; [done|].
  assert (Hs : slot_test occupied map (length pre) = occupied x).
  { unfold slot_test. by rewrite Hm, list_lookup_middle. }
  specialize (IH (pre ++ [x])). rewrite length_app in IH. simpl in IH.
  replace (length pre + 1)%nat with (S (length pre)) in IH by lia.
  rewrite <- app_assoc in IH. specialize (IH Hm).
  destruct (occupied x) eqn:Ho.
  - rewrite !filter_cons_True by (by rewrite ?Hs). simpl. by rewrite IH.
  - rewrite !filter_cons_False by (rewrite ?Hs, ?Ho; done). done.
Qed.

Lemma occupied_slots_count map :
  Z.of_nat (length (occupied_slots map)) = count_occupied map.
Proof.
  unfold occupied_slots, count_occupied. f_equal.
  by apply (occupied_slots_count_from map [] (pairs map)).
Qed.

(** C8, as amended: in every reachable state the first [n] slots of the
    chain [first(), next(first()), ...], where [n] is the number of slots
    with a non-empty value, are exactly those slots, each once and in
    ascending order, so the keys visited are the keys that
    [hash_map_contains] reports; [n] equals [size] when no value handed to
    the map was the empty text.  [next(NULL)] is [NULL].  [next] scans the
    other slots cyclically, so it returns [NULL] only when no other slot is
    occupied: with two or more occupied slots the chain does not end after
    [n] slots but wraps to the first one. *)
Theorem traversal_visits_occupied (P : HashMapValue -> Prop) map :
  reachable_storing P map ->
  traverse map (length (occupied_slots map)) = Some (occupied_slots map) /\
  NoDup (occupied_slots map) /\
  (forall i, i ∈ occupied_slots map <->
     exists p, pairs map !! i = Some p /\ string_empty (value p) = false) /\
  (forall k, hash_map_contains map k = Some true <->
     exists i p, i ∈ occupied_slots map /\
                 pairs map !! i = Some p /\ key p = k) /\
  ((forall v, P v -> nonempty_text v) ->
   Z.of_nat (length (occupied_slots map)) = size map) /\
  hash_map_next_pair map None = Some None /\
  (forall i, (i < length (pairs map))%nat ->
     hash_map_next_pair map (Some i) = Some None <->
     forall j, j ∈ occupied_slots map -> j = i).
Proof.
  intros Hr. destruct (reachable_wf _ _ Hr) as [Hwf _].
  split; [by apply traverse_occupied|].
  split; [apply NoDup_filter, NoDup_seq|].
  split; [by apply elem_of_occupied_slots|].
  split; [by apply contains_occupied|].
  split.
  { intros HP. rewrite occupied_slots_count. apply reachable_exact.
    by apply (reachable_storing_weaken P). }
  split; [done|]. intros i. by apply next_pair_none.
Qed.

Lemma traversal_visits_occupied_witness :
  traverse collided4 (length (occupied_slots collided4))
    = Some (occupied_slots collided4) /\
  NoDup (occupied_slots collided4) /\
  (forall i, i ∈ occupied_slots collided4 <->
     exists p, pairs collided4 !! i = Some p /\
               string_empty (value p) = false) /\
  (forall k, hash_map_contains collided4 k = Some true <->
     exists i p, i ∈ occupied_slots collided4 /\
                 pairs collided4 !! i = Some p /\ key p = k) /\
  ((forall v, nonempty_text v -> nonempty_text v) ->
   Z.of_nat (length (occupied_slots collided4)) = size collided4) /\
  hash_map_next_pair collided4 None = Some None /\
  (forall i, (i < length (pairs collided4))%nat ->
     hash_map_next_pair collided4 (Some i) = Some None <->
     forall j, j ∈ occupied_slots collided4 -> j = i).
Proof.
  apply (traversal_visits_occupied nonempty_text collided4).
  apply reachable_collided4.
Defined.

(** C8 as stated fails: with two entries the chain does not end after
    [size] slots; the third element is the first slot again. *)
Lemma traversal_wraps_around :
  reachable collided4 /\ size collided4 = 2 /\
  traverse collided4 3 = Some [0%nat; 1%nat; 0%nat] /\
  hash_map_next_pair collided4 (Some 1%nat) = Some (Some 0%nat).
Proof.
  split; [|done].
  apply (reachable_storing_weaken nonempty_text); [done|].
  apply reachable_collided4.
Qed.

(** ** Removal and duplicates *)

Lemma reachable_holed4 : reachable holed4.
Proof.
  apply (reach_run _ collided4 (Remove 0)); [|done|reflexivity].
  apply (reachable_storing_weaken nonempty_text); [done|].
  apply reachable_collided4.
Qed.

Lemma reachable_doubled4 : reachable doubled4.
Proof.
  by apply (reach_run _ holed4 (Insert 4 "c"%string)); [apply reachable_holed4|..].
Qed.

(** C9: on a table of four slots, after insert of key 0, insert of key 4
    (which collides into slot 1) and removal of key 0, [hash_map_insert]
    returns true for key 4 although [hash_map_contains] already reports it,
    and slots 0 and 1 are then both occupied and both hold key 4. *)
Theorem duplicate_key_after_removal :
  hash_map_create_with true true 4 = Some table4 /\
  run_all table4 [Insert 0 "a"%string; Insert 4 "b"%string; Remove 0]
    = Some holed4 /\
  reachable holed4 /\
  hash_map_contains holed4 4 = Some true /\
  hash_map_insert holed4 4 "c"%string = Some (true, doubled4) /\
  exists i j p q, i <> j /\
    pairs doubled4 !! i = Some p /\ pairs doubled4 !! j = Some q /\
    key p = 4 /\ key q = 4 /\ occupied p = true /\ occupied q = true.
Proof.
  do 2 (split; [done|]). split; [apply reachable_holed4|].
  do 2 (split; [done|]).
  exists 0%nat, 1%nat, (mkPair 4 "c"%string), (mkPair 4 "b"%string).
  repeat split; done.
Qed.

(** C2 at the failing input: [doubled4] is reachable and holds key 4 twice;
    [hash_map_remove] returns true and decrements [size], yet
    [hash_map_find] still returns a slot for key 4 and [hash_map_contains]
    still returns true. *)
Theorem remove_then_find_duplicate :
  run_all table4 [Insert 0 "a"%string; Insert 4 "b"%string; Remove 0;
                  Insert 4 "c"%string] = Some doubled4 /\
  reachable doubled4 /\
  hash_map_remove doubled4 4
    = Some (true, mkMap 4 1 [mkPair 4 string_zero; mkPair 4 "b"%string;
                             zero_pair; zero_pair]) /\
  hash_map_find (mkMap 4 1 [mkPair 4 string_zero; mkPair 4 "b"%string;
                            zero_pair; zero_pair]) 4 = Some (Some 1%nat) /\
  hash_map_contains (mkMap 4 1 [mkPair 4 string_zero; mkPair 4 "b"%string;
                                zero_pair; zero_pair]) 4 = Some true.
Proof. split; [done|]. split; [apply reachable_doubled4|done]. Qed.

(** C7, as amended: a successful [hash_map_remove] empties the value of the
    slot that [hash_map_find] returns for the key and leaves the key of
    that slot as it was (a slot is empty when its value is empty); no
    other slot of the map is modified. *)
Theorem remove_resets_value map k map' :
  hash_map_remove map k = Some (true, map') ->
  exists j p,
    hash_map_find map k = Some (Some j) /\
    pairs map !! j = Some p /\ key p = k /\
    pairs map' !! j = Some (mkPair k string_zero) /\
    length (pairs map') = length (pairs map) /\
    forall i, i <> j -> pairs map' !! i = pairs map !! i.
Proof.
  intros Hrem.
  destruct (remove_true_inv _ _ _ Hrem) as (h & j & p & Hh & Hpr & Hp & Hm & ->).
  assert (Hk : key p = k).
  { unfold matches in Hm. apply andb_true_iff in Hm as [Hk _].
    by apply Z.eqb_eq. }
  exists j, p. repeat split; try done.
  - unfold hash_map_find. rewrite Hh. simpl. by rewrite find_loop_probe.
  - simpl. apply lookup_lt_Some in Hp.
    rewrite list_lookup_insert_eq by done. by rewrite Hk.
  - simpl. apply length_insert.
  - intros i Hi. simpl. by apply list_lookup_insert_ne.
Qed.

Lemma remove_resets_value_witness :
  exists j p,
    hash_map_find collided4 0 = Some (Some j) /\
    pairs collided4 !! j = Some p /\ key p = 0 /\
    pairs holed4 !! j = Some (mkPair 0 string_zero) /\
    length (pairs holed4) = length (pairs collided4) /\
    forall i, i <> j -> pairs holed4 !! i = pairs collided4 !! i.
Proof.
  apply (remove_resets_value collided4 0 holed4). reflexivity.
Defined.

(** C7 as stated fails: removing key 4 from [collided4] leaves key 4 in
    slot 1; the key is not reset to zero, so the slot differs from the
    zero-filled slot that [hash_map_clear] produces. *)
Lemma remove_keeps_key :
  (exists map', hash_map_remove collided4 4 = Some (true, map') /\
     (key <$> pairs map' !! 1%nat) = Some 4 /\
     pairs map' !! 1%nat <> Some zero_pair) /\
  (exists map', hash_map_clear collided4 = Some map' /\
     pairs map' !! 1%nat = Some zero_pair).
Proof.
  split; eexists; (split; [reflexivity|]); done.
Qed.

(** * Further properties of the operations *)

(** ** First and last *)

Lemma filter_seq_head_min (P : nat -> Prop) `{!forall x, Decision (P x)}
    a n j rest x :
  filter P (seq a n) = j :: rest -> x ∈ filter P (seq a n) -> (j <= x)%nat.
Proof.
  revert a. induction n as [|n IH]; intros a Hf Hx; [done|].
  assert (a <= x)%nat as Hax.
  { apply list_elem_of_filter in Hx as [_ Hx]. apply elem_of_seq in Hx. lia. }
  cbn [seq] in Hf, Hx. rewrite filter_cons in Hf, Hx. case_decide.
  - injection Hf as <- _. done.
  - by apply (IH (S a)).
Qed.

Lemma filter_seq_last_max (P : nat -> Prop) `{!forall x, Decision (P x)}
    a n i x :
  last (filter P (seq a n)) = Some i -> x ∈ filter P (seq a n) ->
  (x <= i)%nat /\ i ∈ filter P (seq a n).
Proof.
  induction n as [|n IH]; intros Hl Hx; [done|].
  assert (x < a + S n)%nat as Hxa.
  { apply list_elem_of_filter in Hx as [_ Hx]. apply elem_of_seq in Hx. lia. }
  rewrite seq_S, filter_app, filter_cons, filter_nil in Hl, Hx |- *.
  case_decide as Hp.
  - rewrite last_snoc in Hl. injection Hl as <-. split; [lia|].
    apply elem_of_app. right. by apply list_elem_of_singleton.
  - rewrite app_nil_r in Hl, Hx |- *. by apply IH.
Qed.

Lemma first_head map :
  wf map -> hash_map_first map = Some (head (occupied_slots map)).
Proof.
  intros Hwf. unfold hash_map_first, occupied_slots.
  rewrite capacity_length by done.
  rewrite first_loop_probe by (done || lia). apply probe_upward; [done|lia].
Qed.

Lemma last_loop_spec map n :
  (n <= length (pairs map))%nat ->
  last_loop map (Z.of_nat n - 1) n
  = Some (last (filter (fun i => slot_test occupied map i = true) (seq 0 n))).
Proof.
  induction n as [|n IH]; intros Hn; [done|].
  rewrite seq_S, filter_app. cbn [last_loop].
  destruct (Z.ltb_spec (Z.of_nat (S n) - 1) 0); [lia|].
  replace (Z.to_nat (Z.of_nat (S n) - 1)) with n by lia.
  destruct (pairs map !! n) as [p|] eqn:Hp.
  2:{ apply lookup_ge_None in Hp. lia. }
  assert (Hs : slot_test occupied map n = occupied p).
  { unfold slot_test. by rewrite Hp. }
  fold (occupied p). change (0 + n)%nat with n.
  destruct (occupied p) eqn:Ho.
  - rewrite filter_cons_True by (by rewrite Hs).
    by rewrite filter_nil, last_snoc.
  - rewrite filter_cons_False by (rewrite Hs; done).
    rewrite filter_nil, app_nil_r.
    replace (Z.of_nat (S n) - 1 - 1) with (Z.of_nat n - 1) by lia.
    apply IH. lia.
Qed.

Lemma last_last map :
  wf map -> hash_map_last map = Some (last (occupied_slots map)).
Proof.
  intros Hwf. pose proof Hwf as [Hpos Hmax Hlen Hsz].
  unfold hash_map_last, occupied_slots.
  rewrite to_size_t_small by lia. rewrite capacity_length by done.
  replace (capacity map - 1) with (Z.of_nat (length (pairs map)) - 1) by lia.
  by apply last_loop_spec.
Qed.

(** X1: on a well-formed map [hash_map_first] returns the occupied slot of
    lowest index and [hash_map_last] the one of highest index; each returns
    [NULL] exactly when no slot is occupied. *)
Theorem first_last_extremes map :
  wf map ->
  match hash_map_first map with
  | Some (Some i) =>
      i ∈ occupied_slots map /\
      forall x, x ∈ occupied_slots map -> (i <= x)%nat
  | Some None => occupied_slots map = []
  | None => False
  end /\
  match hash_map_last map with
  | Some (Some i) =>
      i ∈ occupied_slots map /\
      forall x, x ∈ occupied_slots map -> (x <= i)%nat
  | Some None => occupied_slots map = []
  | None => False
  end.
Proof.
  intros Hwf. rewrite first_head, last_last by done. split.
  - destruct (occupied_slots map) as [|j rest] eqn:Hl; [done|]. simpl.
    split; [by left|]. intros x Hx. rewrite <- Hl in Hx.
    unfold occupied_slots in *. by eapply filter_seq_head_min.
  - destruct (last (occupied_slots map)) as [i|] eqn:Hl.
    + split.
      * apply last_Some in Hl as [l' ->]. apply elem_of_app. right.
        by apply list_elem_of_singleton.
      * intros x Hx. unfold occupied_slots in *.
        by destruct (filter_seq_last_max _ _ _ _ _ Hl Hx).
    + by apply last_None.
Qed.

Lemma first_last_extremes_witness :
  match hash_map_first collided4 with
  | Some (Some i) =>
      i ∈ occupied_slots collided4 /\
      forall x, x ∈ occupied_slots collided4 -> (i <= x)%nat
  | Some None => occupied_slots collided4 = []
  | None => False
  end /\
  match hash_map_last collided4 with
  | Some (Some i) =>
      i ∈ occupied_slots collided4 /\
      forall x, x ∈ occupied_slots collided4 -> (x <= i)%nat
  | Some None => occupied_slots collided4 = []
  | None => False
  end.
Proof.
  apply (first_last_extremes collided4).
  constructor; unfold max_slots, size_t_modulus; simpl; lia.
Defined.

(** ** Creation *)

Lemma count_zero_free map i p :
  count_occupied map = 0 -> pairs map !! i = Some p ->
  string_empty (value p) = true.
Proof.
  unfold count_occupied. intros Hc Hp.
  destruct (string_empty (value p)) eqn:He; [done|].
  pose proof (occupied_count_insert (pairs map) i p zero_pair Hp) as Hi.
  unfold occupied at 2 3 in Hi. rewrite He in Hi. simpl in Hi. lia.
Qed.

Lemma count_zero_slots map : count_occupied map = 0 -> occupied_slots map = [].
Proof.
  rewrite <- occupied_slots_count. intros H.
  apply length_zero_iff_nil. lia.
Qed.

Lemma count_zero_miss map k :
  wf map -> count_occupied map = 0 -> hash_map_find map k = Some None.
Proof.
  intros Hwf Hc.
  destruct (find_cases map k Hwf) as [[H _]|(j & p & _ & Hp & Hm)]; [done|].
  apply matches_occupied in Hm. unfold occupied in Hm.
  by rewrite (count_zero_free map j p Hc Hp) in Hm.
Qed.

(** X2: a map that [hash_map_create_with] returns has size 0, the capacity
    asked for and no entry: it is empty, no key is found or contained, and
    first and last return [NULL]. *)
Theorem fresh_map_is_empty malloc_ok calloc_ok cap map :
  cap <= max_slots ->
  hash_map_create_with malloc_ok calloc_ok cap = Some map ->
  hash_map_size map = 0 /\ hash_map_capacity map = cap /\
  hash_map_empty map = true /\
  (forall k, hash_map_find map k = Some None /\
             hash_map_contains map k = Some false) /\
  hash_map_first map = Some None /\ hash_map_last map = Some None.
Proof.
  intros Hcap Hc.
  destruct (create_with_inv _ _ _ _ Hcap Hc) as (Hwf & Hn & Hs & Hcp).
  unfold hash_map_size, hash_map_capacity, hash_map_empty.
  rewrite Hs. repeat split; [done|..].
  - by apply count_zero_miss.
  - unfold hash_map_contains. by rewrite count_zero_miss.
  - by rewrite first_head, count_zero_slots.
  - by rewrite last_last, count_zero_slots.
Qed.

Lemma fresh_map_is_empty_witness :
  hash_map_size table4 = 0 /\ hash_map_capacity table4 = 4 /\
  hash_map_empty table4 = true /\
  (forall k, hash_map_find table4 k = Some None /\
             hash_map_contains table4 k = Some false) /\
  hash_map_first table4 = Some None /\ hash_map_last table4 = Some None.
Proof.
  apply (fresh_map_is_empty true true 4 table4);
    [unfold max_slots; lia|reflexivity].
Defined.

(** ** Bounds *)

Lemma effect_capacity map o map' :
  effect map o map' ->
  capacity map' = capacity map /\ length (pairs map') = length (pairs map).
Proof.
  intros He. destruct He; simpl;
    rewrite ?length_insert, ?length_replicate; done.
Qed.

(** X3: on a well-formed map no operation reads or writes outside the slot
    array or divides by zero: insert, insert_or_assign, remove and clear
    return a well-formed map of the same capacity, and find, contains,
    first, last and next (of a slot of the array) return a result. *)
Theorem operations_stay_in_bounds map :
  wf map ->
  (forall o, exists map',
     run map o = Some map' /\ wf map' /\
     hash_map_capacity map' = hash_map_capacity map /\
     length (pairs map') = length (pairs map)) /\
  (forall k, is_Some (hash_map_find map k) /\
             is_Some (hash_map_contains map k)) /\
  is_Some (hash_map_first map) /\ is_Some (hash_map_last map) /\
  (forall i, (i < length (pairs map))%nat ->
     is_Some (hash_map_next_pair map (Some i))).
Proof.
  intros Hwf. repeat split.
  - intros o. destruct (run_effect map o Hwf) as (map' & Hr & He).
    exists map'. destruct (effect_capacity _ _ _ He).
    eauto using effect_wf.
  - destruct (find_cases map k Hwf) as [[-> _]|(j & p & -> & _)]; eauto.
  - unfold hash_map_contains.
    destruct (find_cases map k Hwf) as [[-> _]|(j & p & -> & _)]; eauto.
  - rewrite first_head; eauto.
  - rewrite last_last; eauto.
  - intros i Hi. by apply next_pair_defined.
Qed.

Lemma operations_stay_in_bounds_witness :
  (forall o, exists map',
     run full2 o = Some map' /\ wf map' /\
     hash_map_capacity map' = hash_map_capacity full2 /\
     length (pairs map') = length (pairs full2)) /\
  (forall k, is_Some (hash_map_find full2 k) /\
             is_Some (hash_map_contains full2 k)) /\
  is_Some (hash_map_first full2) /\ is_Some (hash_map_last full2) /\
  (forall i, (i < length (pairs full2))%nat ->
     is_Some (hash_map_next_pair full2 (Some i))).
Proof.
  apply (operations_stay_in_bounds full2).
  constructor; unfold max_slots, size_t_modulus; simpl; lia.
Defined.

(** ** Find *)

(** X4: on a well-formed map [hash_map_find] returns a slot only if that
    slot holds the key with a non-empty value, and it returns [NULL] only if
    no slot of the whole table does: a hole in the probe run does not hide
    a key. *)
Theorem find_sound_complete map k :
  wf map ->
  match hash_map_find map k with
  | Some (Some j) =>
      exists p, pairs map !! j = Some p /\ key p = k /\
                string_empty (value p) = false
  | Some None =>
      forall i p, pairs map !! i = Some p -> key p = k ->
                  string_empty (value p) = true
  | None => False
  end.
Proof.
  intros Hwf.
  destruct (find_cases map k Hwf) as [[-> Hno]|(j & p & -> & Hp & Hm)].
  - intros i p Hp Hk. specialize (Hno i p Hp). unfold matches in Hno.
    subst k. rewrite Z.eqb_refl in Hno.
    by destruct (string_empty (value p)).
  - unfold matches in Hm. apply andb_true_iff in Hm as [Hk He].
    exists p. repeat split; [done|by apply Z.eqb_eq|].
    by destruct (string_empty (value p)).
Qed.

Lemma find_sound_complete_witness :
  match hash_map_find holed4 4 with
  | Some (Some j) =>
      exists p, pairs holed4 !! j = Some p /\ key p = 4 /\
                string_empty (value p) = false
  | Some None =>
      forall i p, pairs holed4 !! i = Some p -> key p = 4 ->
                  string_empty (value p) = true
  | None => False
  end.
Proof.
  apply (find_sound_complete holed4 4).
  constructor; unfold max_slots, size_t_modulus; simpl; lia.
Defined.

(** ** Failed operations *)

Lemma insert_false_same map k v map' :
  hash_map_insert map k v = Some (false, map') -> map' = map.
Proof.
  unfold hash_map_insert.
  destruct (Qle_bool 1 (hash_map_load_factor map)); [by intros [= <-]|].
  destruct (hash_map_hash map k) as [h|]; [|done]. simpl.
  rewrite insert_loop_probe.
  destruct (probe _ _ _ _) as [[j|]|]; [| by intros [= <-] | done].
  destruct (pairs map !! j) as [p|]; [|done].
  destruct (string_empty (value p)); [done|by intros [= <-]].
Qed.

Lemma remove_false_same map k map' :
  hash_map_remove map k = Some (false, map') -> map' = map.
Proof.
  unfold hash_map_remove.
  destruct (hash_map_hash map k) as [h|]; [|done]. simpl.
  rewrite remove_loop_probe.
  destruct (probe _ _ _ _) as [[j|]|]; [| by intros [= <-] | done].
  destruct (pairs map !! j) as [p|]; done.
Qed.

(** X5: an insert, insert_or_assign or remove that returns false has not
    changed the map, whatever the state; in particular removing a key that
    is not there leaves [size] as it was. *)
Theorem failed_operation_changes_nothing map k v map' :
  (hash_map_insert map k v = Some (false, map') -> map' = map) /\
  (hash_map_insert_or_assign map k v = Some (false, map') -> map' = map) /\
  (hash_map_remove map k = Some (false, map') -> map' = map).
Proof.
  split; [apply insert_false_same|]. split; [|apply remove_false_same].
  unfold hash_map_insert_or_assign.
  destruct (hash_map_find map k) as [[j|]|]; simpl;
    [|apply insert_false_same|done].
  destruct (store_value map j (string_create_from v)); done.
Qed.

(** ** Remove *)

(** X6: on a well-formed map [hash_map_remove] returns true exactly when
    [hash_map_contains] reported the key. *)
Theorem remove_reports_contains map k :
  wf map ->
  exists b map', hash_map_remove map k = Some (b, map') /\
                 hash_map_contains map k = Some b.
Proof.
  intros Hwf. unfold hash_map_contains.
  destruct (remove_cases map k Hwf) as [Hr|(j & p & Hp & Hm & Hr)];
    rewrite Hr; do 2 eexists; (split; [done|]).
  - destruct (find_cases map k Hwf) as [[-> _]|(j & p & Hf & Hp & Hm)];
      [done|].
    destruct (find_hit_inv _ _ _ Hf) as (h & _ & Hh & Hpr & _).
    unfold hash_map_remove in Hr. rewrite Hh in Hr. simpl in Hr.
    rewrite remove_loop_probe, Hpr, Hp in Hr. done.
  - destruct (find_cases map k Hwf) as [[_ Hno]|(j' & p' & -> & _)];
      [|done].
    by rewrite (Hno j p Hp) in Hm.
Qed.

Lemma remove_reports_contains_witness :
  exists b map', hash_map_remove collided4 7 = Some (b, map') /\
                 hash_map_contains collided4 7 = Some b.
Proof.
  apply (remove_reports_contains collided4 7).
  constructor; unfold max_slots, size_t_modulus; simpl; lia.
Defined.

Lemma occupied_counted map j p :
  pairs map !! j = Some p -> occupied p = true -> 1 <= count_occupied map.
Proof.
  intros Hp Ho. unfold count_occupied.
  pose proof (occupied_count_insert (pairs map) j p zero_pair Hp) as Hi.
  rewrite Ho in Hi. simpl in Hi. lia.
Qed.

(** X7: in a reachable state a successful [hash_map_remove] decrements
    [size] by exactly one; the counter does not wrap below zero. *)
Theorem remove_decrements_size (P : HashMapValue -> Prop) map k map' :
  reachable_storing P map ->
  hash_map_remove map k = Some (true, map') ->
  hash_map_size map' = hash_map_size map - 1 /\ 0 <= hash_map_size map'.
Proof.
  intros Hr Hrem. destruct (reachable_wf _ _ Hr) as [Hwf Hok].
  destruct (remove_true_inv _ _ _ Hrem) as (h & j & p & _ & _ & Hp & Hm & ->).
  pose proof (occupied_counted map j p Hp (matches_occupied _ _ Hm)).
  destruct Hwf. unfold counters_ok, hash_map_size in *. simpl.
  rewrite to_size_t_small by lia. lia.
Qed.

Lemma remove_decrements_size_witness :
  hash_map_size holed4 = hash_map_size collided4 - 1 /\
  0 <= hash_map_size holed4.
Proof.
  apply (remove_decrements_size nonempty_text collided4 0 holed4);
    [apply reachable_collided4|reflexivity].
Defined.

(** ** Insert and the other keys *)

(** Rewriting a slot that did not hold [k2] with a pair that does not hold
    [k2] does not change what find returns for [k2]. *)
Lemma find_other_key map j p q sz k2 :
  pairs map !! j = Some p ->
  matches k2 p = false -> matches k2 q = false ->
  hash_map_find (mkMap (capacity map) sz (<[j := q]> (pairs map))) k2
  = hash_map_find map k2.
Proof.
  intros Hp Hmp Hmq. unfold hash_map_find.
  rewrite (hash_capacity map) by done.
  destruct (hash_map_hash map k2) as [h|]; [simpl|done].
  rewrite !find_loop_probe.
  apply probe_ext; [done|apply length_insert|].
  intros i. unfold slot_test. simpl.
  destruct (decide (i = j)) as [->|Hi].
  - rewrite Hp. apply lookup_lt_Some in Hp.
    rewrite list_lookup_insert_eq by done. congruence.
  - by rewrite list_lookup_insert_ne.
Qed.

Lemma matches_other_key k k2 v : k2 <> k -> matches k2 (mkPair k v) = false.
Proof.
  intros Hne. unfold matches. simpl.
  destruct (Z.eqb_spec k k2); [congruence|done].
Qed.

Lemma matches_free k p : string_empty (value p) = true -> matches k p = false.
Proof. intros He. unfold matches. rewrite He. apply andb_false_r. Qed.

Lemma insert_other_key map k v b map' k2 :
  hash_map_insert map k v = Some (b, map') -> k2 <> k ->
  hash_map_find map' k2 = hash_map_find map k2.
Proof.
  intros Hins Hne. destruct b.
  - destruct (insert_true_inv _ _ _ _ Hins)
      as (h & j & p & _ & _ & Hp & He & -> & _).
    apply (find_other_key map j p); [done|by apply matches_free|].
    by apply matches_other_key.
  - by rewrite (insert_false_same _ _ _ _ Hins).
Qed.

Lemma insert_true_size map k v map' :
  wf map -> hash_map_insert map k v = Some (true, map') ->
  size map' = size map + 1.
Proof.
  intros Hwf Hins. pose proof Hwf as [Hpos Hmax Hlen Hsz].
  destruct (insert_true_inv _ _ _ _ Hins)
    as (h & j & p & _ & _ & _ & _ & -> & Hlf).
  rewrite load_factor_full in Hlf by done. apply Z.leb_gt in Hlf.
  simpl. rewrite to_size_t_small by lia. done.
Qed.

(** X8: a successful [hash_map_insert] writes the pair into one slot that
    was empty and leaves every other slot and the capacity as they were;
    [size] grows by exactly one on a well-formed map, and
    [hash_map_find] returns for every other key what it returned before. *)
Theorem insert_changes_one_slot map k v map' :
  hash_map_insert map k v = Some (true, map') ->
  (exists j p, pairs map !! j = Some p /\ string_empty (value p) = true /\
               pairs map' = <[j := mkPair k v]> (pairs map)) /\
  hash_map_capacity map' = hash_map_capacity map /\
  (wf map -> hash_map_size map' = hash_map_size map + 1) /\
  (forall k2, k2 <> k -> hash_map_find map' k2 = hash_map_find map k2).
Proof.
  intros Hins. repeat split.
  - destruct (insert_true_inv _ _ _ _ Hins)
      as (h & j & p & _ & _ & Hp & He & -> & _). eauto.
  - destruct (insert_true_inv _ _ _ _ Hins)
      as (h & j & p & _ & _ & Hp & He & -> & _). done.
  - intros Hwf. by apply (insert_true_size map k v).
  - intros k2 Hne. by apply (insert_other_key map k v true).
Qed.

Lemma insert_changes_one_slot_witness :
  (exists j p, pairs half2 !! j = Some p /\ string_empty (value p) = true /\
               pairs full2 = <[j := mkPair 1 "b"%string]> (pairs half2)) /\
  hash_map_capacity full2 = hash_map_capacity half2 /\
  (wf half2 -> hash_map_size full2 = hash_map_size half2 + 1) /\
  (forall k2, k2 <> 1 -> hash_map_find full2 k2 = hash_map_find half2 k2).
Proof.
  apply (insert_changes_one_slot half2 1 "b"%string full2). reflexivity.
Defined.

Lemma insert_room (P : HashMapValue -> Prop) map k v :
  reachable_storing P map ->
  size map < capacity map ->
  hash_map_contains map k = Some false ->
  exists map', hash_map_insert map k v = Some (true, map') /\
               size map' = size map + 1.
Proof.
  intros Hr Hsz Hc.
  destruct (reachable_wf _ _ Hr) as [Hwf Hok].
  pose proof Hwf as [Hpos Hmax Hlen Hsize].
  assert (Habs : forall i p, pairs map !! i = Some p -> matches k p = false).
  { destruct (find_cases map k Hwf) as [[_ H]|(j & p & Hf & _)]; [done|].
    unfold hash_map_contains in Hc. by rewrite Hf in Hc. }
  destruct (insert_succeeds map k v Hwf) as (j & p & Hp & Hpe & Hins);
    [done| |done|].
  { apply free_slot_exists. unfold counters_ok, count_occupied in Hok. lia. }
  eexists. split; [done|]. by apply (insert_true_size map k v).
Qed.

(** X9: in a reachable state that is not full, [hash_map_insert] of a key
    that is not contained succeeds and [size] grows by one. *)
Theorem insert_succeeds_when_room (P : HashMapValue -> Prop) map k v :
  reachable_storing P map ->
  hash_map_size map < hash_map_capacity map ->
  hash_map_contains map k = Some false ->
  exists map', hash_map_insert map k v = Some (true, map') /\
               hash_map_size map' = hash_map_size map + 1.
Proof. apply insert_room. Qed.

Lemma insert_succeeds_when_room_witness :
  exists map', hash_map_insert collided4 2 "c"%string = Some (true, map') /\
               hash_map_size map' = hash_map_size collided4 + 1.
Proof.
  apply (insert_succeeds_when_room nonempty_text collided4 2 "c"%string);
    [apply reachable_collided4|reflexivity|reflexivity].
Defined.

(** ** Insert-or-assign *)

(** X10: if [hash_map_insert_or_assign map k v] returns true and [v] is
    not the empty text, [hash_map_find] then returns a slot that holds [k]
    with the value [v], whether the key was there before or not. *)
Theorem insert_or_assign_then_find map k v map' :
  string_empty v = false ->
  hash_map_insert_or_assign map k v = Some (true, map') ->
  exists j, hash_map_find map' k = Some (Some j) /\
            pairs map' !! j = Some (mkPair k v) /\
            hash_map_contains map' k = Some true.
Proof.
  intros Hv. unfold hash_map_insert_or_assign.
  destruct (hash_map_find map k) as [[j|]|] eqn:Hf; simpl; [| |done].
  - destruct (find_hit_inv _ _ _ Hf) as (h & p & Hh & Hpr & Hp & Hm).
    unfold store_value. rewrite Hp. simpl. intros [= <-].
    assert (Hk : key p = k).
    { unfold matches in Hm. apply andb_true_iff in Hm as [Hk _].
      by apply Z.eqb_eq. }
    assert (Hfind : hash_map_find
              (mkMap (capacity map) (size map)
                 (<[j := mkPair (key p) (string_create_from v)]> (pairs map)))
              k = Some (Some j)).
    { apply (find_after_store (matches k) map k h); [done|done|done|].
      unfold matches, string_create_from. simpl.
      by rewrite Hk, Z.eqb_refl, Hv. }
    exists j. repeat split; [done| |].
    + simpl. apply lookup_lt_Some in Hp.
      rewrite list_lookup_insert_eq by done. by rewrite Hk.
    + unfold hash_map_contains. by rewrite Hfind.
  - intros Hins.
    destruct (insert_find_slot _ _ _ _ Hv Hins) as (j & Hfind & Hj).
    exists j. repeat split; [done..|].
    unfold hash_map_contains. by rewrite Hfind.
Qed.

Lemma insert_or_assign_then_find_witness :
  exists j,
    hash_map_find (mkMap 2 2 [mkPair 0 "a"%string; mkPair 1 "z"%string]) 1
      = Some (Some j) /\
    pairs (mkMap 2 2 [mkPair 0 "a"%string; mkPair 1 "z"%string]) !! j
      = Some (mkPair 1 "z"%string) /\
    hash_map_contains (mkMap 2 2 [mkPair 0 "a"%string; mkPair 1 "z"%string]) 1
      = Some true.
Proof.
  apply (insert_or_assign_then_find full2 1 "z"%string); reflexivity.
Defined.

(** X11: whatever it returns, [hash_map_insert_or_assign] for key [k]
    leaves the result of [hash_map_find] for every other key unchanged. *)
Theorem insert_or_assign_keeps_other_keys map k v b map' k2 :
  hash_map_insert_or_assign map k v = Some (b, map') -> k2 <> k ->
  hash_map_find map' k2 = hash_map_find map k2.
Proof.
  unfold hash_map_insert_or_assign.
  destruct (hash_map_find map k) as [[j|]|] eqn:Hf; simpl; [| |done].
  - destruct (find_hit_inv _ _ _ Hf) as (h & p & Hh & Hpr & Hp & Hm).
    unfold store_value. rewrite Hp. simpl. intros [= <- <-] Hne.
    assert (Hk : key p = k).
    { unfold matches in Hm. apply andb_true_iff in Hm as [Hk _].
      by apply Z.eqb_eq. }
    apply (find_other_key map j p).
    + done.
    + unfold matches. rewrite Hk.
      destruct (Z.eqb_spec k k2); [congruence|done].
    + rewrite Hk. by apply matches_other_key.
  - apply insert_other_key.
Qed.

Lemma insert_or_assign_keeps_other_keys_witness :
  hash_map_find (mkMap 2 2 [mkPair 0 "a"%string; mkPair 1 "z"%string]) 0
  = hash_map_find full2 0.
Proof.
  apply (insert_or_assign_keeps_other_keys full2 1 "z"%string true);
    [reflexivity|lia].
Defined.

(** ** Key uniqueness *)

(** Rewriting slot [j] keeps the keys unique if the new pair is empty,
    keeps the key of an occupied slot [j], or brings a key that no occupied
    slot holds. *)
Lemma unique_keys_store map j p q sz :
  pairs map !! j = Some p -> unique_keys map ->
  (occupied q = true ->
   (occupied p = true /\ key q = key p) \/
   (forall i r, pairs map !! i = Some r -> occupied r = true ->
                key r <> key q)) ->
  unique_keys (mkMap (capacity map) sz (<[j := q]> (pairs map))).
Proof.
  intros Hp Hu Hq i1 i2 p1 p2. simpl. intros H1 H2 Ho1 Ho2 Hk.
  apply lookup_lt_Some in Hp as Hlt.
  destruct (decide (i1 = j)) as [->|Hn1]; destruct (decide (i2 = j)) as [->|Hn2];
    [done| | |].
  - rewrite list_lookup_insert_eq in H1 by done. injection H1 as <-.
    rewrite list_lookup_insert_ne in H2 by done.
    destruct (Hq Ho1) as [[Hop Hkq]|Hnone].
    + apply (Hu j i2 p p2); congruence.
    + destruct (Hnone i2 p2 H2 Ho2). done.
  - rewrite list_lookup_insert_eq in H2 by done. injection H2 as <-.
    rewrite list_lookup_insert_ne in H1 by done.
    destruct (Hq Ho2) as [[Hop Hkq]|Hnone].
    + apply (Hu i1 j p1 p); congruence.
    + destruct (Hnone i1 p1 H1 Ho1). done.
  - rewrite list_lookup_insert_ne in H1, H2 by done. by apply (Hu i1 i2 p1 p2).
Qed.

Lemma unique_keys_insert map k v b map' :
  wf map -> unique_keys map -> hash_map_find map k = Some None ->
  hash_map_insert map k v = Some (b, map') -> unique_keys map'.
Proof.
  intros Hwf Hu Hf Hins. destruct b.
  2:{ by rewrite (insert_false_same _ _ _ _ Hins). }
  destruct (insert_true_inv _ _ _ _ Hins)
    as (h & j & p & _ & _ & Hp & He & -> & _).
  apply (unique_keys_store map j p); [done|done|]. intros _. right.
  intros i r Hr Hor Hkr. simpl in Hkr.
  destruct (find_cases map k Hwf) as [[_ Hno]|(j' & p' & Hf' & _)];
    [|congruence].
  specialize (Hno i r Hr). unfold matches, occupied in *.
  rewrite Hkr, Z.eqb_refl, Hor in Hno. done.
Qed.

Lemma unique_keys_run map o map' :
  wf map -> unique_keys map ->
  (forall k v, o = Insert k v -> hash_map_contains map k = Some false) ->
  run map o = Some map' ->
  unique_keys map'.
Proof.
  intros Hwf Hu Hins. destruct o as [k v|k v|k|]; simpl.
  - destruct (hash_map_insert map k v) as [[b m]|] eqn:Hi; [|done].
    simpl. intros [= <-].
    apply (unique_keys_insert map k v b); [done|done| |done].
    specialize (Hins k v eq_refl). unfold hash_map_contains in Hins.
    by destruct (hash_map_find map k) as [[j|]|].
  - unfold hash_map_insert_or_assign.
    destruct (find_cases map k Hwf) as [[Hf _]|(j & p & Hf & Hp & Hm)];
      rewrite Hf; simpl.
    + destruct (hash_map_insert map k v) as [[b m]|] eqn:Hi; [|done].
      simpl. intros [= <-]. by apply (unique_keys_insert map k v b).
    + unfold store_value. rewrite Hp. simpl. intros [= <-].
      apply (unique_keys_store map j p); [done|done|].
      intros _. left. split; [by eapply matches_occupied|done].
  - destruct (remove_cases map k Hwf) as [->|(j & p & Hp & Hm & ->)];
      simpl; intros [= <-]; [done|].
    apply (unique_keys_store map j p); [done|done|]. done.
  - rewrite clear_spec by done. intros [= <-].
    intros i j p q. simpl. intros Hp _ Ho.
    apply lookup_replicate_1 in Hp as [-> _]. done.
Qed.

(** X12: on a well-formed map in which no two occupied slots hold the same
    key, insert_or_assign, remove and clear keep it so, and so does insert
    of a key that is not contained.  Only an insert of a key that is
    already contained can store a key twice. *)
Theorem unique_keys_preserved map o map' :
  wf map -> unique_keys map ->
  (forall k v, o = Insert k v -> hash_map_contains map k = Some false) ->
  run map o = Some map' ->
  unique_keys map'.
Proof. apply unique_keys_run. Qed.

Lemma unique_keys_collided4 : unique_keys collided4.
Proof.
  intros i j p q Hp Hq Hop Hoq Hk.
  destruct i as [|[|[|[|i]]]]; destruct j as [|[|[|[|j]]]];
    simpl in Hp, Hq; try done;
    injection Hp as <-; injection Hq as <-; done.
Qed.

Lemma wf_collided4 : wf collided4.
Proof. constructor; unfold max_slots, size_t_modulus; simpl; lia. Qed.

Lemma unique_keys_preserved_witness : unique_keys holed4.
Proof.
  apply (unique_keys_preserved collided4 (Remove 0) holed4);
    [apply wf_collided4|apply unique_keys_collided4|done|reflexivity].
Defined.

Lemma remove_then_miss map k map' :
  wf map -> unique_keys map ->
  hash_map_remove map k = Some (true, map') ->
  hash_map_find map' k = Some None.
Proof.
  intros Hwf Hu Hrem.
  destruct (remove_true_inv _ _ _ Hrem) as (h & j & p & _ & _ & Hp & Hm & ->).
  assert (Hwf' : wf (vacated map j p)).
  { apply (effect_wf map (Remove k)); [done|].
    constructor; [done|by eapply matches_occupied]. }
  destruct (find_cases _ k Hwf') as [[H _]|(j' & p' & _ & Hp' & Hm')];
    [done|]. exfalso. simpl in Hp'.
  apply lookup_lt_Some in Hp as Hlt.
  destruct (decide (j' = j)) as [->|Hne].
  - rewrite list_lookup_insert_eq in Hp' by done. injection Hp' as <-.
    unfold matches in Hm'. simpl in Hm'. by rewrite andb_false_r in Hm'.
  - rewrite list_lookup_insert_ne in Hp' by done.
    apply Hne. apply (Hu j' j p' p); eauto using matches_occupied.
    unfold matches in Hm, Hm'.
    apply andb_true_iff in Hm as [Hk _]. apply andb_true_iff in Hm' as [Hk' _].
    apply Z.eqb_eq in Hk, Hk'. congruence.
Qed.

(** X13: on a well-formed map in which no two occupied slots hold the same
    key, after [hash_map_remove map k] returns true [hash_map_find] returns
    [NULL] for [k] and [hash_map_contains] returns false. *)
Theorem remove_then_find_unique map k map' :
  wf map -> unique_keys map ->
  hash_map_remove map k = Some (true, map') ->
  hash_map_find map' k = Some None /\ hash_map_contains map' k = Some false.
Proof.
  intros Hwf Hu Hrem.
  pose proof (remove_then_miss map k map' Hwf Hu Hrem) as Hf.
  split; [done|]. unfold hash_map_contains. by rewrite Hf.
Qed.

Lemma remove_then_find_unique_witness :
  hash_map_find holed4 0 = Some None /\
  hash_map_contains holed4 0 = Some false.
Proof.
  apply (remove_then_find_unique collided4 0 holed4);
    [apply wf_collided4|apply unique_keys_collided4|reflexivity].
Defined.

(** ** Clear *)

(** X14: on a well-formed map [hash_map_clear] produces exactly the map
    that [hash_map_create_with] returns for the same capacity: size 0,
    capacity unchanged, every slot zero, no key contained. *)
Theorem clear_gives_fresh_map map :
  wf map ->
  exists map',
    hash_map_clear map = Some map' /\
    hash_map_create_with true true (hash_map_capacity map) = Some map' /\
    hash_map_size map' = 0 /\
    hash_map_capacity map' = hash_map_capacity map /\
    (forall k, hash_map_contains map' k = Some false).
Proof.
  intros Hwf. pose proof Hwf as [Hpos Hmax Hlen Hsz].
  exists (cleared map).
  assert (Hc : hash_map_create_with true true (capacity map)
               = Some (cleared map)).
  { unfold hash_map_create_with, cleared.
    destruct (Z.leb_spec (capacity map) 0); [lia|]. simpl.
    by rewrite capacity_length. }
  split; [by apply clear_spec|]. split; [done|]. do 2 (split; [done|]).
  intros k.
  destruct (create_with_inv _ _ _ _ Hmax Hc) as (Hwf' & Hn & _).
  unfold hash_map_contains. by rewrite count_zero_miss.
Qed.

Lemma clear_gives_fresh_map_witness :
  exists map',
    hash_map_clear collided4 = Some map' /\
    hash_map_create_with true true (hash_map_capacity collided4) = Some map' /\
    hash_map_size map' = 0 /\
    hash_map_capacity map' = hash_map_capacity collided4 /\
    (forall k, hash_map_contains map' k = Some false).
Proof. apply (clear_gives_fresh_map collided4). apply wf_collided4. Defined.

(** ** Empty and the load factor *)

(** X15: in a reachable state for which [hash_map_empty] returns true no
    key is contained and first returns [NULL]; when no value handed to the
    map was the empty text the converse holds as well. *)
Theorem empty_means_no_entry (P : HashMapValue -> Prop) map :
  reachable_storing P map ->
  (hash_map_empty map = true ->
   (forall k, hash_map_contains map k = Some false) /\
   hash_map_first map = Some None) /\
  ((forall v, P v -> nonempty_text v) ->
   hash_map_first map = Some None -> hash_map_empty map = true).
Proof.
  intros Hr. destruct (reachable_wf _ _ Hr) as [Hwf Hok].
  unfold hash_map_empty. split.
  - intros He%Z.eqb_eq.
    assert (count_occupied map = 0) as Hc.
    { unfold counters_ok, count_occupied in *. lia. }
    split.
    + intros k. unfold hash_map_contains. by rewrite count_zero_miss.
    + by rewrite first_head, count_zero_slots.
  - intros HP Hf. apply Z.eqb_eq.
    rewrite <- (reachable_exact map)
      by (by apply (reachable_storing_weaken P)).
    rewrite <- occupied_slots_count.
    rewrite first_head in Hf by done.
    destruct (occupied_slots map); [done|]. simpl in Hf. congruence.
Qed.

Lemma empty_means_no_entry_witness :
  (hash_map_empty table4 = true ->
   (forall k, hash_map_contains table4 k = Some false) /\
   hash_map_first table4 = Some None) /\
  ((forall v, nonempty_text v -> nonempty_text v) ->
   hash_map_first table4 = Some None -> hash_map_empty table4 = true).
Proof.
  apply (empty_means_no_entry nonempty_text table4). apply reachable_table4.
Defined.

(** X16: in a reachable state the load factor lies between 0 and 1, and it
    is 1 exactly when [size] equals [capacity]. *)
Theorem load_factor_range (P : HashMapValue -> Prop) map :
  reachable_storing P map ->
  (0 <= hash_map_load_factor map)%Q /\
  (hash_map_load_factor map <= 1)%Q /\
  ((hash_map_load_factor map == 1)%Q <->
   hash_map_size map = hash_map_capacity map).
Proof.
  intros Hr. destruct (reachable_wf _ _ Hr) as [Hwf Hok].
  pose proof Hwf as [Hpos Hmax Hlen Hsz].
  assert (0 <= count_occupied map) by (unfold count_occupied; lia).
  unfold counters_ok, hash_map_load_factor, hash_map_size,
    hash_map_capacity in *.
  destruct (capacity map) as [|c|c] eqn:Hc; try lia.
  unfold Qle, Qeq, Qdiv, Qmult, Qinv, inject_Z. simpl.
  repeat split; lia.
Qed.

Lemma load_factor_range_witness :
  (0 <= hash_map_load_factor full2)%Q /\
  (hash_map_load_factor full2 <= 1)%Q /\
  ((hash_map_load_factor full2 == 1)%Q <->
   hash_map_size full2 = hash_map_capacity full2).
Proof.
  apply (load_factor_range nonempty_text full2).
  apply (reachable_run_all _ table2 [Insert 0 "a"%string; Insert 1 "b"%string]);
    [|repeat constructor|reflexivity].
  apply (reach_create _ true true 2); [by unfold max_slots|reflexivity].
Defined.

(** ** Linear probing *)

Lemma slot_after_mod c pair t :
  (pair < c)%nat -> (t < c)%nat -> slot_after c pair t = ((pair + t) mod c)%nat.
Proof.
  intros Hp Ht. unfold slot_after. case_decide.
  - symmetry. by apply Nat.mod_small.
  - replace (pair + t)%nat with (pair + t - c + 1 * c)%nat at 2 by lia.
    rewrite Nat.Div0.mod_add. symmetry. apply Nat.mod_small. lia.
Qed.

(** X17: on a well-formed map a successful [hash_map_insert] stores the
    pair in the first empty slot of the probe run that starts at the home
    slot [hash(k)] and wraps at the end of the array; every slot of the run
    before it is occupied by another key. *)
Theorem insert_probes_from_home map k v map' :
  wf map ->
  hash_map_insert map k v = Some (true, map') ->
  exists h t,
    hash_map_hash map k = Some h /\ (t < length (pairs map))%nat /\
    pairs map' !! ((Z.to_nat h + t) mod length (pairs map))%nat
      = Some (mkPair k v) /\
    forall t', (t' < t)%nat ->
      exists p,
        pairs map !! ((Z.to_nat h + t') mod length (pairs map))%nat = Some p /\
        string_empty (value p) = false /\ key p <> k.
Proof.
  intros Hwf Hins.
  destruct (insert_true_inv _ _ _ _ Hins)
    as (h & j & p & Hh & Hpr & Hp & He & -> & _).
  destruct (hash_range map k Hwf) as (h' & Hh' & Hlt).
  assert (h' = h) as -> by congruence.
  rewrite capacity_length in Hpr by done.
  pose proof (probe_spec map Hwf (free_or_same k) _ _ Hlt (le_n _)) as Hs.
  rewrite Hpr in Hs. destruct Hs as (t & Ht & Hj & _ & Hpre).
  exists h, t. split; [done|]. split; [done|]. split.
  - rewrite <- slot_after_mod, <- Hj by done. simpl.
    apply lookup_lt_Some in Hp. by rewrite list_lookup_insert_eq.
  - intros t' Ht'. specialize (Hpre t' Ht').
    rewrite <- slot_after_mod by (done || lia).
    unfold slot_test in Hpre.
    destruct (pairs map !! slot_after _ _ t') as [q|] eqn:Hq.
    + exists q. split; [done|]. unfold free_or_same in Hpre.
      apply orb_false_iff in Hpre as [Hqe Hqk]. split; [done|].
      by apply Z.eqb_neq.
    + apply lookup_ge_None in Hq. unfold slot_after in Hq.
      case_decide; lia.
Qed.

Lemma insert_probes_from_home_witness :
  exists h t,
    hash_map_hash holed4 4 = Some h /\ (t < length (pairs holed4))%nat /\
    pairs doubled4 !! ((Z.to_nat h + t) mod length (pairs holed4))%nat
      = Some (mkPair 4 "c"%string) /\
    forall t', (t' < t)%nat ->
      exists p,
        pairs holed4 !! ((Z.to_nat h + t') mod length (pairs holed4))%nat
          = Some p /\
        string_empty (value p) = false /\ key p <> 4.
Proof.
  apply (insert_probes_from_home holed4 4 "c"%string doubled4);
    [|reflexivity].
  constructor; unfold max_slots, size_t_modulus; simpl; lia.
Defined.

(** ** Next *)

Lemma occupied_slot_test map i :
  i ∈ occupied_slots map <-> slot_test occupied map i = true.
Proof.
  unfold occupied_slots. rewrite list_elem_of_filter, elem_of_seq. split.
  - by intros [? _].
  - intros H. split; [done|]. apply slot_test_lt in H. lia.
Qed.

(** X18: on a well-formed map [hash_map_next_pair] never returns the slot
    it was given nor an empty slot, and from the occupied slot of highest
    index it wraps to the occupied slot of lowest index when there is
    another one, so the chain of next calls does not end by itself. *)
Theorem next_pair_wraps map :
  wf map ->
  (forall i j, (i < length (pairs map))%nat ->
     hash_map_next_pair map (Some i) = Some (Some j) ->
     j <> i /\ j ∈ occupied_slots map) /\
  (forall i j0,
     head (occupied_slots map) = Some j0 ->
     last (occupied_slots map) = Some i -> i <> j0 ->
     hash_map_next_pair map (Some i) = Some (Some j0)).
Proof.
  intros Hwf. split.
  - intros i j Hi. rewrite next_pair_probe, capacity_length by done.
    intros Hr. destruct (probe_others_hit map Hwf occupied i j Hi Hr).
    split; [done|]. by apply occupied_slot_test.
  - intros i j0 Hhead Hlast Hne.
    assert (i ∈ occupied_slots map) as Hi.
    { apply last_Some in Hlast as [l' ->]. apply elem_of_app. right.
      by apply list_elem_of_singleton. }
    assert (j0 ∈ occupied_slots map) as Hj0.
    { destruct (occupied_slots map); [done|]. injection Hhead as ->. by left. }
    assert (Hmin : forall x, x ∈ occupied_slots map -> (j0 <= x)%nat).
    { intros x Hx. destruct (occupied_slots map) as [|y rest] eqn:Hl; [done|].
      injection Hhead as ->. rewrite <- Hl in Hx. unfold occupied_slots in *.
      by eapply filter_seq_head_min. }
    assert (Hmax : forall x, x ∈ occupied_slots map -> (x <= i)%nat).
    { intros x Hx. unfold occupied_slots in *.
      by destruct (filter_seq_last_max _ _ _ _ _ Hlast Hx). }
    apply occupied_slot_test in Hi as Hti. apply slot_test_lt in Hti.
    apply occupied_slot_test in Hj0 as Htj0.
    rewrite next_pair_probe, capacity_length by done.
    pose proof (probe_spec map Hwf occupied _ (length (pairs map) - 1)
                  (pair_step_lt map Hwf i Hti)) as Hs.
    destruct (probe occupied map (pair_step map i) (length (pairs map) - 1))
      as [[j|]|] eqn:Hr.
    + destruct (probe_others_hit map Hwf occupied i j Hti Hr) as [Hji Htj].
      destruct Hs as (t & Ht & Hj & _ & Hpre); [lia|].
      rewrite slot_after_step in Hj by (done || lia).
      apply occupied_slot_test in Htj as Hjo.
      pose proof (Hmin j Hjo). pose proof (Hmax j Hjo).
      destruct (decide (j = j0)) as [->|Hjj]; [done|]. exfalso.
      set (t0 := (j0 + length (pairs map) - i - 1)%nat).
      assert (t0 < t)%nat as Ht0.
      { subst t0. unfold slot_after in Hj. case_decide; lia. }
      specialize (Hpre t0 Ht0).
      rewrite slot_after_step in Hpre by (done || lia).
      assert (slot_after (length (pairs map)) i (S t0) = j0) as E.
      { subst t0. unfold slot_after. case_decide; lia. }
      rewrite E in Hpre. congruence.
    + rewrite (probe_others_miss map Hwf occupied i j0 Hti Hr) in Htj0;
        [done|congruence].
    + destruct Hs. lia.
Qed.

Lemma next_pair_wraps_witness :
  (forall i j, (i < length (pairs collided4))%nat ->
     hash_map_next_pair collided4 (Some i) = Some (Some j) ->
     j <> i /\ j ∈ occupied_slots collided4) /\
  (forall i j0,
     head (occupied_slots collided4) = Some j0 ->
     last (occupied_slots collided4) = Some i -> i <> j0 ->
     hash_map_next_pair collided4 (Some i) = Some (Some j0)).
Proof. apply (next_pair_wraps collided4). apply wf_collided4. Defined.

(** ** Maps built without plain insert *)

Lemma run_all_cons map o os :
  run_all map (o :: os)
  = match run map o with Some m => run_all m os | None => None end.
Proof.
  unfold run_all. simpl. destruct (run map o) as [m|]; [done|].
  induction os as [|o' os IH]; [done|]. simpl. apply IH.
Qed.

Lemma unique_keys_run_all map os map' :
  wf map -> unique_keys map ->
  Forall (fun o => forall k v, o <> Insert k v) os ->
  run_all map os = Some map' ->
  wf map' /\ unique_keys map'.
Proof.
  intros Hwf Hu Hos. revert map Hwf Hu.
  induction Hos as [|o os Ho _ IH]; intros map Hwf Hu.
  - unfold run_all. simpl. by intros [= <-].
  - rewrite run_all_cons.
    destruct (run_effect map o Hwf) as (m & Hrun & He). rewrite Hrun.
    apply IH; [by eapply effect_wf|].
    apply (unique_keys_run map o); [done|done| |done].
    intros k v ->. by destruct (Ho k v).
Qed.

(** X19: a map built from a freshly created one by insert_or_assign,
    remove and clear only (no plain insert) never holds a key in two
    occupied slots, and in it a successful remove of a key is followed by
    find returning [NULL] for that key. *)
Theorem no_duplicates_without_insert malloc_ok calloc_ok cap map0 os map :
  cap <= max_slots ->
  hash_map_create_with malloc_ok calloc_ok cap = Some map0 ->
  Forall (fun o => forall k v, o <> Insert k v) os ->
  run_all map0 os = Some map ->
  unique_keys map /\
  forall k map', hash_map_remove map k = Some (true, map') ->
                 hash_map_find map' k = Some None.
Proof.
  intros Hcap Hc Hos Hrun.
  destruct (create_with_inv _ _ _ _ Hcap Hc) as (Hwf0 & Hn & _).
  assert (Hu0 : unique_keys map0).
  { intros i j p q Hp _ Ho. unfold occupied in Ho.
    by rewrite (count_zero_free map0 i p Hn Hp) in Ho. }
  destruct (unique_keys_run_all map0 os map Hwf0 Hu0 Hos Hrun) as [Hwf Hu].
  split; [done|]. intros k map' Hrem.
  by apply (remove_then_miss map k map').
Qed.

Lemma no_duplicates_without_insert_witness :
  unique_keys collided4 /\
  forall k map', hash_map_remove collided4 k = Some (true, map') ->
                 hash_map_find map' k = Some None.
Proof.
  apply (no_duplicates_without_insert true true 4 table4
           [InsertOrAssign 0 "a"%string; InsertOrAssign 4 "b"%string]).
  - unfold max_slots. lia.
  - reflexivity.
  - repeat constructor; intros k v; discriminate.
  - reflexivity.
Defined.

(** ** Filling a map *)

Lemma contains_other_key map k v b map' k2 :
  hash_map_insert map k v = Some (b, map') -> k2 <> k ->
  hash_map_contains map' k2 = hash_map_contains map k2.
Proof.
  intros Hins Hne. unfold hash_map_contains.
  by rewrite (insert_other_key map k v b map' k2).
Qed.

(** X20: in a reachable state, inserting pairs with pairwise distinct keys
    that are not contained and with non-empty values succeeds for every
    pair as long as they fit: with [size + n <= capacity] all [n] inserts
    return true, [size] grows by [n], and afterwards exactly the old keys
    and the new ones are contained.  A map can thus be filled to its
    capacity. *)
Theorem fill_up_to_capacity map l :
  reachable map ->
  Forall (fun kv => nonempty_text kv.2) l ->
  NoDup l.*1 ->
  (forall k, k ∈ l.*1 -> hash_map_contains map k = Some false) ->
  hash_map_size map + Z.of_nat (length l) <= hash_map_capacity map ->
  exists map',
    insert_all map l = Some (true, map') /\
    reachable map' /\
    hash_map_size map' = hash_map_size map + Z.of_nat (length l) /\
    forall k, hash_map_contains map' k = Some true <->
              (hash_map_contains map k = Some true \/ k ∈ l.*1).
Proof.
  unfold hash_map_size, hash_map_capacity.
  intros Hr Hl. revert map Hr.
  induction Hl as [|[k v] l Hv _ IH]; intros map Hr Hnd Hnew Hfit.
  - exists map. simpl. repeat split; [done|lia| |].
    + by left.
    + intros [?|Hk]; [done|]. by apply elem_of_nil in Hk.
  - simpl in *. apply NoDup_cons in Hnd as [Hk Hnd].
    destruct (insert_room _ map k v Hr) as (m & Hins & Hsz); [lia| |].
    { apply Hnew. by left. }
    assert (Hrm : reachable m).
    { apply (reach_run _ map (Insert k v)); [done|done|].
      simpl. by rewrite Hins. }
    assert (Hcm : capacity m = capacity map).
    { destruct (insert_true_inv _ _ _ _ Hins)
        as (? & ? & ? & _ & _ & _ & _ & -> & _). done. }
    destruct (IH m Hrm Hnd) as (map' & Hall & Hr' & Hsz' & Hc').
    { intros k' Hk'.
      rewrite (contains_other_key map k v true m k' Hins).
      - apply Hnew. by right.
      - intros ->. done. }
    { lia. }
    exists map'. rewrite Hins, Hall. simpl. repeat split; [done|lia| |].
    + rewrite Hc'. intros [Hm|Hk']; [|right; by right].
      destruct (decide (k0 = k)) as [->|Hne]; [right; by left|].
      left. by rewrite <- (contains_other_key map k v true m k0 Hins).
    + rewrite Hc'. intros [Hm|Hk'].
      * left. destruct (decide (k0 = k)) as [->|Hne].
        -- rewrite Hnew in Hm by (by left). done.
        -- by rewrite (contains_other_key map k v true m k0 Hins).
      * apply elem_of_cons in Hk' as [->|Hk']; [|by right].
        left. destruct (insert_find_slot _ _ _ _ Hv Hins) as (j & Hf & _).
        unfold hash_map_contains. by rewrite Hf.
Qed.

Lemma fresh_table2_contains k : hash_map_contains table2 k = Some false.
Proof.
  unfold hash_map_contains. rewrite count_zero_miss; [done| |done].
  constructor; unfold max_slots, size_t_modulus; simpl; lia.
Qed.

Lemma fill_up_to_capacity_witness :
  exists map',
    insert_all table2 [(0, "a"%string); (1, "b"%string)] = Some (true, map') /\
    reachable map' /\
    hash_map_size map' = hash_map_size table2 + Z.of_nat 2 /\
    forall k, hash_map_contains map' k = Some true <->
              (hash_map_contains table2 k = Some true \/
               k ∈ [(0, "a"%string); (1, "b"%string)].*1).
Proof.
  apply (fill_up_to_capacity table2 [(0, "a"%string); (1, "b"%string)]).
  - apply (reach_create _ true true 2); [by unfold max_slots|reflexivity].
  - repeat constructor.
  - simpl. apply NoDup_cons. split.
    + intros H. apply list_elem_of_singleton in H. discriminate.
    + apply NoDup_singleton.
  - intros k _. apply (fresh_table2_contains k).
  - simpl. unfold hash_map_size, hash_map_capacity. simpl. lia.
Defined.

(** ** Inserting a key twice *)

Lemma entries_held_refl k map : entries_held k map map.
Proof. repeat split. intros i p Hp Ho. exists p. done. Qed.

(** Rewriting a slot keeps the entries if the slot was empty, or if the
    new pair is occupied, has the key of the old one and that key is not
    [k]. *)
Lemma entries_held_store k map m j p q sz :
  entries_held k map m ->
  pairs m !! j = Some p ->
  (occupied p = true -> key q = key p /\ occupied q = true /\ key p <> k) ->
  entries_held k map (mkMap (capacity m) sz (<[j := q]> (pairs m))).
Proof.
  intros (Hc & Hl & Hs) Hp Hq. split; [done|].
  split; [simpl; by rewrite length_insert|].
  intros i p0 Hp0 Ho0. simpl.
  destruct (Hs i p0 Hp0 Ho0) as (p' & Hp' & Hk & Ho' & Hv).
  destruct (decide (i = j)) as [->|Hne].
  - assert (p' = p) as -> by congruence.
    destruct (Hq Ho') as (Hkq & Hoq & Hnk).
    exists q. apply lookup_lt_Some in Hp.
    rewrite list_lookup_insert_eq by done.
    repeat split; [congruence|done|]. intros Hk0. congruence.
  - exists p'. by rewrite list_lookup_insert_ne.
Qed.

Lemma entries_held_insert k map m k' v' b m' :
  entries_held k map m ->
  hash_map_insert m k' v' = Some (b, m') ->
  entries_held k map m'.
Proof.
  intros Hh Hins. destruct b.
  - destruct (insert_true_inv _ _ _ _ Hins)
      as (h & j & p & _ & _ & Hp & He & -> & _).
    apply (entries_held_store k map m j p); [done|done|].
    unfold occupied. rewrite He. done.
  - by rewrite (insert_false_same _ _ _ _ Hins).
Qed.

Lemma entries_held_run k map m o m' :
  entries_held k map m -> keeps_entry k o -> run m o = Some m' ->
  entries_held k map m'.
Proof.
  intros Hh Ho. destruct o as [k' v'|k' v'|k'|]; simpl in *; [| |done..].
  - destruct (hash_map_insert m k' v') as [[b m'']|] eqn:Hins; [|done].
    simpl. intros [= <-]. by apply (entries_held_insert k map m k' v' b).
  - destruct Ho as [Hne Hv]. unfold hash_map_insert_or_assign.
    destruct (hash_map_find m k') as [[j|]|] eqn:Hf; simpl; [| |done].
    + destruct (find_hit_inv _ _ _ Hf) as (h & p & _ & _ & Hp & Hm).
      unfold store_value. rewrite Hp. simpl. intros [= <-].
      apply (entries_held_store k map m j p); [done|done|]. intros _.
      unfold matches in Hm. apply andb_true_iff in Hm as [Hk _].
      apply Z.eqb_eq in Hk. repeat split; [|congruence].
      unfold occupied, string_create_from. simpl. by rewrite Hv.
    + destruct (hash_map_insert m k' v') as [[b m'']|] eqn:Hins; [|done].
      simpl. intros [= <-]. by apply (entries_held_insert k map m k' v' b).
Qed.

Lemma entries_held_run_all k map m os m' :
  entries_held k map m -> Forall (keeps_entry k) os ->
  run_all m os = Some m' -> entries_held k map m'.
Proof.
  intros Hh Hos. revert m Hh.
  induction Hos as [|o os Ho _ IH]; intros m Hh.
  - unfold run_all. simpl. by intros [= <-].
  - rewrite run_all_cons. destruct (run m o) as [m1|] eqn:Hrun; [|done].
    apply IH. by apply (entries_held_run k map m o).
Qed.

(** C5, as amended: if [hash_map_insert map k v1] succeeds with a non-empty
    [v1] and is followed by any number of insert calls and of
    insert_or_assign calls for other keys with non-empty values, but by no
    remove, no clear and no assignment of the empty text, then a further
    [hash_map_insert] for [k] returns false and leaves the map as it was:
    find still returns the slot holding [v1] and [size] is unchanged. *)
Theorem duplicate_insert_refused map k v1 v2 map1 os map2 :
  string_empty v1 = false ->
  hash_map_insert map k v1 = Some (true, map1) ->
  Forall (keeps_entry k) os ->
  run_all map1 os = Some map2 ->
  hash_map_insert map2 k v2 = Some (false, map2) /\
  exists j, hash_map_find map2 k = Some (Some j) /\
            pairs map2 !! j = Some (mkPair k v1).
Proof.
  intros Hv Hins Hos Hrun.
  destruct (insert_true_inv _ _ _ _ Hins)
    as (h & j & p & Hh & Hpr & Hp & He & -> & _).
  apply lookup_lt_Some in Hp as Hlt.
  destruct (entries_held_run_all k _ _ os map2
              (entries_held_refl k (placed map j k v1)) Hos Hrun)
    as (Hc & Hl & Hs).
  simpl in Hc, Hl. rewrite length_insert in Hl.
  assert (Hj : pairs map2 !! j = Some (mkPair k v1)).
  { destruct (Hs j (mkPair k v1)) as (p' & Hp' & _ & _ & Hsame).
    - simpl. by rewrite list_lookup_insert_eq.
    - unfold occupied. simpl. by rewrite Hv.
    - by rewrite Hp', Hsame. }
  assert (Hpre : forall i, slot_test (free_or_same k) map i = false ->
            exists q, (pairs map2 !! i = Some q /\ key q <> k /\
                       occupied q = true) \/ pairs map2 !! i = None).
  { intros i Hi. unfold slot_test in Hi.
    destruct (pairs map !! i) as [q|] eqn:Hq.
    - assert (i <> j) as Hne.
      { intros ->. unfold free_or_same in Hi.
        assert (q = p) as -> by congruence. by rewrite He in Hi. }
      unfold free_or_same in Hi. apply orb_false_iff in Hi as [Hqe Hqk].
      destruct (Hs i q) as (q' & Hq' & Hk' & Ho' & _).
      + simpl. by rewrite list_lookup_insert_ne.
      + unfold occupied. by rewrite Hqe.
      + exists q'. left. repeat split; [done| |done].
        apply Z.eqb_neq in Hqk. congruence.
    - exists p. right. apply lookup_ge_None in Hq. apply lookup_ge_None. lia. }
  split.
  - unfold hash_map_insert.
    destruct (Qle_bool 1 (hash_map_load_factor map2)); [done|].
    rewrite (hash_capacity map) by done. rewrite Hh. simpl.
    rewrite insert_loop_probe, Hc.
    rewrite (probe_transfer map (free_or_same k) (free_or_same k) map2 _ _ j);
      [|done|done| | |done].
    + rewrite Hj. simpl. by rewrite Hv.
    + intros i Hi. unfold slot_test.
      destruct (Hpre i Hi) as (q & [(-> & Hk & Ho)| ->]); [|done].
      unfold free_or_same, occupied in *.
      destruct (string_empty (value q)); [done|]. simpl.
      by apply Z.eqb_neq.
    + unfold slot_test, free_or_same. rewrite Hj. simpl.
      rewrite Z.eqb_refl. apply orb_true_r.
  - exists j. split; [|done].
    unfold hash_map_find. rewrite (hash_capacity map) by done. rewrite Hh.
    simpl. rewrite find_loop_probe, Hc.
    apply (probe_transfer map (free_or_same k)); [done|done| | |done].
    + intros i Hi. unfold slot_test.
      destruct (Hpre i Hi) as (q & [(-> & Hk & Ho)| ->]); [|done].
      unfold matches. apply Z.eqb_neq in Hk. by rewrite Hk.
    + unfold slot_test, matches. rewrite Hj. simpl.
      by rewrite Z.eqb_refl, Hv.
Qed.

Lemma duplicate_insert_refused_witness :
  hash_map_insert crowded4 4 "z"%string = Some (false, crowded4) /\
  exists j, hash_map_find crowded4 4 = Some (Some j) /\
            pairs crowded4 !! j = Some (mkPair 4 "b"%string).
Proof.
  apply (duplicate_insert_refused
           (mkMap 4 1 [mkPair 0 "a"%string; zero_pair; zero_pair; zero_pair])
           4 "b"%string "z"%string collided4
           [Insert 1 "x"%string; InsertOrAssign 0 "y"%string] crowded4).
  - reflexivity.
  - reflexivity.
  - repeat constructor. discriminate.
  - reflexivity.
Defined.

(** An assignment of the empty text between the two inserts acts as a
    removal: it empties slot 0 in front of key 4, and the second insert of
    key 4 succeeds and stores the key a second time. *)
Lemma duplicate_insert_after_assigned_empty :
  hash_map_insert
    (mkMap 4 1 [mkPair 0 "a"%string; zero_pair; zero_pair; zero_pair])
    4 "b"%string = Some (true, collided4) /\
  hash_map_insert_or_assign collided4 0 EmptyString
    = Some (true, mkMap 4 2 [mkPair 0 string_zero; mkPair 4 "b"%string;
                             zero_pair; zero_pair]) /\
  hash_map_insert
    (mkMap 4 2 [mkPair 0 string_zero; mkPair 4 "b"%string;
                zero_pair; zero_pair]) 4 "c"%string
    = Some (true, mkMap 4 3 [mkPair 4 "c"%string; mkPair 4 "b"%string;
                             zero_pair; zero_pair]).
Proof. repeat split; reflexivity. Qed.
